(** * The chat thread component of the techrag web application

    A shallow embedding of the [Thread] component (its text follows
    that of GraphVisualization under webapp/src/components): its local
    state, the two effects that follow the stream (error
    notification, first-token tracking), the three submission entry
    points ([handleSubmit], [handleSuggestedPrompt], [handleRegenerate]),
    the new-thread action [setThreadId] and the projection of the
    transcript that is rendered.

    React state and refs are fields of one record that every handler
    takes and returns; calls that leave the component ([stream.submit],
    [toast.error], [e.preventDefault]) are appended to a trace. *)

From Stdlib Require Import ZArith NArith Ascii String DecimalString DecimalZ.
From stdpp Require Import base option list gmap.

Local Open Scope Z_scope.

(** ** JavaScript strings and values *)

(** A JavaScript string is a sequence of UTF-16 code units. *)
Definition jsstring : Type := list N.

(** The code units of an ASCII literal. *)
Definition js (s : string) : jsstring :=
  map (fun c => N_of_ascii c) (list_ascii_of_string s).

(** ECMAScript WhiteSpace and LineTerminator code points: what
    [String.prototype.trim] strips. *)
Definition isWhiteSpace (c : N) : bool :=
  ((c =? 0x0009) || (c =? 0x000A) || (c =? 0x000B) || (c =? 0x000C) ||
   (c =? 0x000D) || (c =? 0x0020) || (c =? 0x00A0) || (c =? 0x1680) ||
   ((0x2000 <=? c) && (c <=? 0x200A)) ||
   (c =? 0x2028) || (c =? 0x2029) || (c =? 0x202F) || (c =? 0x205F) ||
   (c =? 0x3000) || (c =? 0xFEFF))%N.

Fixpoint trimStart (s : jsstring) : jsstring :=
  match s with
  | c :: rest => if isWhiteSpace c then trimStart rest else s
  | [] => []
  end.

Definition trimEnd (s : jsstring) : jsstring :=
  reverse (trimStart (reverse s)).

(** [s.trim()] *)
Definition trim (s : jsstring) : jsstring := trimEnd (trimStart s).

(** [s.startsWith(p)] *)
Fixpoint startsWith (s p : jsstring) : bool :=
  match p, s with
  | [], _ => true
  | _ :: _, [] => false
  | a :: p', b :: s' => (a =? b)%N && startsWith s' p'
  end.

(** The values that the component inspects dynamically (the error of the
    stream and its [message] are typed [unknown] and [any]).  Numbers are
    integers here, so NaN is left out; an object is known by its address
    only, which is all that [!v] and [===] look at. *)
Inductive JsVal :=
  | JUndefined
  | JNull
  | JBool (b : bool)
  | JNum (z : Z)
  | JStr (s : jsstring)
  | JRef (addr : nat).

#[global] Instance JsVal_eq_dec : EqDecision JsVal.
Proof. solve_decision. Defined.

(** [!!v] *)
Definition truthy (v : JsVal) : bool :=
  match v with
  | JUndefined | JNull => false
  | JBool b => b
  | JNum z => negb (z =? 0)
  | JStr s => negb (Nat.eqb (length s) 0)
  | JRef _ => true
  end.

(** [a === b] *)
Definition strict_eq (a b : JsVal) : bool :=
  match a, b with
  | JUndefined, JUndefined => true
  | JNull, JNull => true
  | JBool x, JBool y => Bool.eqb x y
  | JNum x, JNum y => (x =? y)
  | JStr x, JStr y => bool_decide (x = y)
  | JRef x, JRef y => Nat.eqb x y
  | _, _ => false
  end.

(** ** Messages, checkpoints, artifact context *)

Inductive MessageType := human | ai | tool | system.

#[global] Instance MessageType_eq_dec : EqDecision MessageType.
Proof. solve_decision. Defined.

(** A content block of a message: a text block, or an attachment block
    produced by the upload hook. *)
Inductive ContentBlock :=
  | TextBlock (text : jsstring)
  | AttachmentBlock (kind : jsstring) (payload : jsstring).

#[global] Instance ContentBlock_eq_dec : EqDecision ContentBlock.
Proof. solve_decision. Defined.

(** [Message["content"]] is a plain string or an array of blocks. *)
Inductive MessageContent :=
  | ContentString (text : jsstring)
  | ContentBlocks (blocks : list ContentBlock).

#[global] Instance MessageContent_eq_dec : EqDecision MessageContent.
Proof. solve_decision. Defined.

Record ToolCall := mkToolCall {
  tc_id : jsstring;
  tc_name : jsstring
}.

#[global] Instance ToolCall_eq_dec : EqDecision ToolCall.
Proof. solve_decision. Defined.

Record Message := mkMessage {
  msg_id : option jsstring;            (* id?: string *)
  msg_type : MessageType;
  msg_content : MessageContent;
  msg_tool_calls : list ToolCall;      (* invocations issued by an ai turn *)
  msg_tool_call_id : option jsstring   (* the invocation a tool message answers *)
}.

#[global] Instance Message_eq_dec : EqDecision Message.
Proof. solve_decision. Defined.

(** An opaque reference into the history of a thread. *)
Inductive Checkpoint := mkCheckpoint (ref : jsstring).

(** The artifact context: an object used as a map from keys to values. *)
Abbreviation ArtifactContext := (gmap jsstring JsVal).

(** [Object.keys(o)] *)
Definition objectKeys (o : ArtifactContext) : list jsstring :=
  (map_to_list o).*1.

(** ** The stream: values, submission payload and options *)

(** The state values of the stream, as [optimisticValues] sees them:
    the two keys the component writes, and the others. *)
Record Values := mkValues {
  v_messages : option (list Message);
  v_context : option ArtifactContext;
  v_rest : gmap jsstring JsVal
}.

(** The first argument of [stream.submit].  A [context] key that holds
    [undefined] and a missing key are both [None]. *)
Record SubmitPayload := mkPayload {
  p_messages : list Message;
  p_context : option ArtifactContext
}.

Record SubmitOptions := mkOptions {
  o_checkpoint : option Checkpoint;
  o_streamMode : list jsstring;
  o_streamSubgraphs : bool;
  o_streamResumable : bool;
  o_optimisticValues : option (Values -> Values)
}.

(** What the component does to the outside. *)
Inductive Effect :=
  | PreventDefault                                         (* e.preventDefault() *)
  | StreamSubmit (payload : option SubmitPayload) (options : SubmitOptions)
  | ToastError (message : JsVal).                          (* toast.error(...) *)

(** The error of the stream: a primitive value, which has no [message]
    of its own, or an object with the value of its [message] property
    ([JUndefined] when it has none). *)
Inductive StreamError :=
  | ErrPrimitive (v : JsVal)
  | ErrObject (message : JsVal).

(** [!!stream.error] *)
Definition error_truthy (e : StreamError) : bool :=
  match e with
  | ErrPrimitive v => truthy v
  | ErrObject _ => true
  end.

(** [(stream.error as any).message]; [None] when the read throws a
    TypeError (on [undefined] and [null]). *)
Definition error_message (e : StreamError) : option JsVal :=
  match e with
  | ErrPrimitive JUndefined | ErrPrimitive JNull => None
  | ErrPrimitive _ => Some JUndefined
  | ErrObject m => Some m
  end.

(** ** The state of the component *)

Record Thread := mkThread {
  (* useArtifactContext, useArtifactOpen *)
  artifactContext : ArtifactContext;
  artifactOpen : bool;
  (* useQueryState("threadId") *)
  threadId : option jsstring;
  (* useState *)
  input : jsstring;
  firstTokenReceived : bool;
  (* useFileUpload *)
  contentBlocks : list ContentBlock;
  (* useRef *)
  lastError : JsVal;
  prevMessageLength : Z;
  (* useStreamContext *)
  stream_messages : list Message;
  stream_isLoading : bool;
  stream_error : StreamError;
  (* calls made so far, oldest first *)
  trace : list Effect
}.

Definition setArtifactContext (c : ArtifactContext) (s : Thread) : Thread :=
  mkThread c (artifactOpen s) (threadId s) (input s) (firstTokenReceived s)
    (contentBlocks s) (lastError s) (prevMessageLength s)
    (stream_messages s) (stream_isLoading s) (stream_error s) (trace s).

(** Modelled from the spec: [closeArtifact] of the artifact provider
    (./artifact), which is not among the sources; it closes the open
    side panel. *)
Definition closeArtifact (s : Thread) : Thread :=
  mkThread (artifactContext s) false (threadId s) (input s)
    (firstTokenReceived s) (contentBlocks s) (lastError s)
    (prevMessageLength s) (stream_messages s) (stream_isLoading s)
    (stream_error s) (trace s).

Definition _setThreadId (id : option jsstring) (s : Thread) : Thread :=
  mkThread (artifactContext s) (artifactOpen s) id (input s)
    (firstTokenReceived s) (contentBlocks s) (lastError s)
    (prevMessageLength s) (stream_messages s) (stream_isLoading s)
    (stream_error s) (trace s).

Definition setInput (v : jsstring) (s : Thread) : Thread :=
  mkThread (artifactContext s) (artifactOpen s) (threadId s) v
    (firstTokenReceived s) (contentBlocks s) (lastError s)
    (prevMessageLength s) (stream_messages s) (stream_isLoading s)
    (stream_error s) (trace s).

Definition setFirstTokenReceived (b : bool) (s : Thread) : Thread :=
  mkThread (artifactContext s) (artifactOpen s) (threadId s) (input s) b
    (contentBlocks s) (lastError s) (prevMessageLength s)
    (stream_messages s) (stream_isLoading s) (stream_error s) (trace s).

Definition setContentBlocks (l : list ContentBlock) (s : Thread) : Thread :=
  mkThread (artifactContext s) (artifactOpen s) (threadId s) (input s)
    (firstTokenReceived s) l (lastError s) (prevMessageLength s)
    (stream_messages s) (stream_isLoading s) (stream_error s) (trace s).

Definition setLastError (v : JsVal) (s : Thread) : Thread :=
  mkThread (artifactContext s) (artifactOpen s) (threadId s) (input s)
    (firstTokenReceived s) (contentBlocks s) v (prevMessageLength s)
    (stream_messages s) (stream_isLoading s) (stream_error s) (trace s).

Definition setPrevMessageLength (n : Z) (s : Thread) : Thread :=
  mkThread (artifactContext s) (artifactOpen s) (threadId s) (input s)
    (firstTokenReceived s) (contentBlocks s) (lastError s) n
    (stream_messages s) (stream_isLoading s) (stream_error s) (trace s).

(** The stream context hands the component a new value of
    [stream.messages], [stream.isLoading] or [stream.error]. *)
Definition setMessages (ms : list Message) (s : Thread) : Thread :=
  mkThread (artifactContext s) (artifactOpen s) (threadId s) (input s)
    (firstTokenReceived s) (contentBlocks s) (lastError s)
    (prevMessageLength s) ms (stream_isLoading s) (stream_error s) (trace s).

Definition setIsLoading (loading : bool) (s : Thread) : Thread :=
  mkThread (artifactContext s) (artifactOpen s) (threadId s) (input s)
    (firstTokenReceived s) (contentBlocks s) (lastError s)
    (prevMessageLength s) (stream_messages s) loading (stream_error s)
    (trace s).

Definition setError (e : StreamError) (s : Thread) : Thread :=
  mkThread (artifactContext s) (artifactOpen s) (threadId s) (input s)
    (firstTokenReceived s) (contentBlocks s) (lastError s)
    (prevMessageLength s) (stream_messages s) (stream_isLoading s) e
    (trace s).

Definition emit (e : Effect) (s : Thread) : Thread :=
  mkThread (artifactContext s) (artifactOpen s) (threadId s) (input s)
    (firstTokenReceived s) (contentBlocks s) (lastError s)
    (prevMessageLength s) (stream_messages s) (stream_isLoading s)
    (stream_error s) (trace s ++ [e]).

(** The state on mount. *)
Definition initialThread : Thread :=
  mkThread ∅ false None [] false [] JUndefined 0 [] false
    (ErrPrimitive JUndefined) [].

(** The options that every submission passes. *)
Definition submitOptions (cp : option Checkpoint)
    (optimistic : option (Values -> Values)) : SubmitOptions :=
  mkOptions cp [js "values"] true true optimistic.

(** ** The component *)

Section Thread.

(** The two imports from @/lib/ensure-tool-responses, which is not
    among the sources. *)
Variable DO_NOT_RENDER_ID_PREFIX : jsstring.
Variable ensureToolCallsHaveResponses : list Message -> list Message.

Definition setThreadId (id : option jsstring) (s : Thread) : Thread :=
  let s := _setThreadId id s in
  (* close artifact and reset artifact context *)
  let s := closeArtifact s in
  setArtifactContext ∅ s.

(** The effect on [stream.error]. *)
Definition errorEffect (s : Thread) : Thread :=
  if negb (error_truthy (stream_error s)) then setLastError JUndefined s
  else
    match error_message (stream_error s) with
    | None => s                                  (* catch: no-op *)
    | Some message =>
        if negb (truthy message) || strict_eq (lastError s) message
        then s
        else emit (ToastError message) (setLastError message s)
    end.

(** The effect on [messages]. *)
Definition messagesEffect (s : Thread) : Thread :=
  let messages := stream_messages s in
  let s :=
    if negb (Z.of_nat (length messages) =? prevMessageLength s)
       && negb (Nat.eqb (length messages) 0)
       && match last messages with
          | Some m => bool_decide (msg_type m = ai)
          | None => false
          end
    then setFirstTokenReceived true s
    else s in
  setPrevMessageLength (Z.of_nat (length messages)) s.

Definition handleSubmit (uuid : jsstring) (s : Thread) : Thread :=
  let s := emit PreventDefault s in
  if (Nat.eqb (length (trim (input s))) 0
      && Nat.eqb (length (contentBlocks s)) 0)
     || stream_isLoading s
  then s
  else
    let s := setFirstTokenReceived false s in
    let newHumanMessage :=
      mkMessage (Some uuid) human
        (ContentBlocks
           ((if Nat.ltb 0 (length (trim (input s)))
             then [TextBlock (input s)] else [])
            ++ contentBlocks s))
        [] None in
    let toolMessages := ensureToolCallsHaveResponses (stream_messages s) in
    let context :=
      if Nat.ltb 0 (length (objectKeys (artifactContext s)))
      then Some (artifactContext s) else None in
    let s :=
      emit
        (StreamSubmit
           (Some (mkPayload (toolMessages ++ [newHumanMessage]) context))
           (submitOptions None
              (Some (fun prev =>
                 mkValues
                   (Some (default [] (v_messages prev)
                          ++ toolMessages ++ [newHumanMessage]))
                   context
                   (v_rest prev)))))
        s in
    let s := setInput [] s in
    setContentBlocks [] s.

Definition handleSuggestedPrompt (uuid prompt : jsstring) (s : Thread)
    : Thread :=
  if stream_isLoading s then s
  else
    let s := setFirstTokenReceived false s in
    let newHumanMessage :=
      mkMessage (Some uuid) human (ContentBlocks [TextBlock prompt])
        [] None in
    emit
      (StreamSubmit
         (Some (mkPayload [newHumanMessage] None))
         (submitOptions None
            (Some (fun prev =>
               mkValues
                 (Some (default [] (v_messages prev) ++ [newHumanMessage]))
                 (v_context prev)
                 (v_rest prev)))))
      s.

Definition handleRegenerate (parentCheckpoint : option Checkpoint)
    (s : Thread) : Thread :=
  (* Do this so the loading state is correct *)
  let s := setPrevMessageLength (prevMessageLength s - 1) s in
  let s := setFirstTokenReceived false s in
  emit (StreamSubmit None (submitOptions parentCheckpoint None)) s.

(** [!m.id?.startsWith(DO_NOT_RENDER_ID_PREFIX)] *)
Definition renderable (m : Message) : bool :=
  negb match msg_id m with
       | Some i => startsWith i DO_NOT_RENDER_ID_PREFIX
       | None => false                 (* undefined *)
       end.

(** The messages handed to the message components. *)
Definition visibleMessages (messages : list Message) : list Message :=
  List.filter renderable messages.

(** What the user and the stream can do to the component.  An effect
    runs when the value it depends on is replaced. *)
Inductive Event :=
  | Submit (uuid : jsstring)                       (* the form is submitted *)
  | SuggestedPrompt (uuid prompt : jsstring)
  | Regenerate (parentCheckpoint : option Checkpoint)
  | NewThread (id : option jsstring)
  | Typed (text : jsstring)                        (* textarea onChange *)
  | Attached (blocks : list ContentBlock)          (* upload hook *)
  | Messages (messages : list Message)             (* new stream.messages *)
  | Loading (isLoading : bool)                     (* new stream.isLoading *)
  | Errored (error : StreamError).                 (* new stream.error *)

Definition step (s : Thread) (ev : Event) : Thread :=
  match ev with
  | Submit uuid => handleSubmit uuid s
  | SuggestedPrompt uuid prompt => handleSuggestedPrompt uuid prompt s
  | Regenerate cp => handleRegenerate cp s
  | NewThread id => setThreadId id s
  | Typed text => setInput text s
  | Attached blocks => setContentBlocks blocks s
  | Messages ms => messagesEffect (setMessages ms s)
  | Loading b => setIsLoading b s
  | Errored e => errorEffect (setError e s)
  end.

Definition run (s : Thread) (evs : list Event) : Thread :=
  fold_left step evs s.

End Thread.

(** ** The tool-call normalizer

    [ensureToolCallsHaveResponses] lives in @/lib/ensure-tool-responses,
    which is not among the sources.  This section follows the contract
    of the specification (ToolCallInvariantEnforcer): [normalize] is the
    transcript completed with the missing responses.  What the function
    hands back to its call site is modelled further down. *)

Section Normalize.

Variable DO_NOT_RENDER_ID_PREFIX : jsstring.
(** [uuidv4 n] is the n-th identifier drawn. *)
Variable uuidv4 : nat -> jsstring.

Definition isToolMessage (m : Message) : bool :=
  bool_decide (msg_type m = tool).

(** The invocations that a message issues. *)
Definition invocations (m : Message) : list ToolCall :=
  if bool_decide (msg_type m = ai) then msg_tool_calls m else [].

(** The tool message [m] is the response to the invocation [tc]. *)
Definition answers (m : Message) (tc : ToolCall) : bool :=
  bool_decide (msg_tool_call_id m = Some (tc_id tc)).

(** The invocations of [pending] that [m] leaves without a response. *)
Definition unanswered (m : Message) (pending : list ToolCall)
    : list ToolCall :=
  List.filter (fun tc => negb (answers m tc)) pending.

(** Modelled from the spec: the synthesized tool-response entry of
    @/lib/ensure-tool-responses, an internal-only tool message whose
    id carries the reserved prefix. *)
Definition toolResponse (n : nat) (tc : ToolCall) : Message :=
  mkMessage (Some (DO_NOT_RENDER_ID_PREFIX ++ uuidv4 n)) tool
    (ContentString []) [] (Some (tc_id tc)).

(** Modelled from the spec: the responses inserted for the invocations
    that the history leaves without one. *)
Fixpoint synthesize (n : nat) (pending : list ToolCall) : list Message :=
  match pending with
  | [] => []
  | tc :: rest => toolResponse n tc :: synthesize (S n) rest
  end.

(** Modelled from the spec: the pass of [normalize] over the
    transcript.  [pending] holds the invocations of the last ai turn
    that the tool messages after it have not answered so far; their
    responses are inserted where the run of tool messages ends.  [n]
    counts the identifiers drawn. *)
Fixpoint pairUp (n : nat) (pending : list ToolCall) (t : list Message)
    : list Message :=
  match t with
  | [] => synthesize n pending
  | m :: rest =>
      if isToolMessage m
      then m :: pairUp n (unanswered m pending) rest
      else synthesize n pending
           ++ m :: pairUp (n + length pending)%nat (invocations m) rest
  end.

(** Modelled from the spec: [normalize] of the
    ToolCallInvariantEnforcer, the transcript in which every ai message
    that issues invocations is immediately followed by a tool response
    for each of them, inserted when the history has none. *)
Definition normalize (t : list Message) : list Message :=
  pairUp 0 [] t.

(** Modelled from the spec: the entries that the pass inserts, without
    the transcript around them. *)
Fixpoint missingResponses (n : nat) (pending : list ToolCall)
    (t : list Message) : list Message :=
  match t with
  | [] => synthesize n pending
  | m :: rest =>
      if isToolMessage m
      then missingResponses n (unanswered m pending) rest
      else synthesize n pending
           ++ missingResponses (n + length pending)%nat (invocations m) rest
  end.

(** Modelled from the spec: [ensureToolCallsHaveResponses] of
    @/lib/ensure-tool-responses, which is not among the sources.  It
    synthesizes what the specification has inserted: a tool response
    with a reserved id for every invocation that the history leaves
    without one.  Its one call site, in [handleSubmit], splices the
    result after the messages the stream already holds and before the
    new human message, so what it returns is these entries alone, not
    the transcript with them. *)
Definition ensureToolCallsHaveResponses (t : list Message) : list Message :=
  missingResponses 0 [] t.

(** The run of tool messages at the head of a transcript. *)
Fixpoint toolRun (t : list Message) : list Message :=
  match t with
  | m :: rest => if isToolMessage m then m :: toolRun rest else []
  | [] => []
  end.

(** Modelled from the spec: the invariant that [normalize] restores:
    each invocation of a message has a response in the run of tool
    messages right after it. *)
Fixpoint paired (t : list Message) : bool :=
  match t with
  | [] => true
  | m :: rest =>
      forallb (fun tc => existsb (fun r => answers r tc) (toolRun rest))
        (invocations m)
      && paired rest
  end.

End Normalize.

(** Every invocation of [p] has the identifier of one of [q]. *)
Definition covered (p q : list ToolCall) : Prop :=
  Forall (fun tc => In (tc_id tc) (List.map tc_id q)) p.

(** ** Reading the trace *)

(** The calls of [stream.submit]. *)
Definition submissions (tr : list Effect)
    : list (option SubmitPayload * SubmitOptions) :=
  omap (fun e => match e with
                 | StreamSubmit p o => Some (p, o)
                 | _ => None
                 end) tr.

(** The messages of the notifications shown. *)
Definition notifications (tr : list Effect) : list JsVal :=
  omap (fun e => match e with
                 | ToastError m => Some m
                 | _ => None
                 end) tr.

(** The context that a call hands to the stream. *)
Definition sentContext (e : Effect) : option ArtifactContext :=
  match e with
  | StreamSubmit (Some p) _ => p_context p
  | _ => None
  end.

(** The guard of [handleSubmit] lets the submission through. *)
Definition submitAccepted (s : Thread) : bool :=
  negb ((Nat.eqb (length (trim (input s))) 0
         && Nat.eqb (length (contentBlocks s)) 0)
        || stream_isLoading s).

(** The human message that [handleSubmit] builds. *)
Definition humanMessage (uuid : jsstring) (s : Thread) : Message :=
  mkMessage (Some uuid) human
    (ContentBlocks
       ((if Nat.ltb 0 (length (trim (input s)))
         then [TextBlock (input s)] else [])
        ++ contentBlocks s))
    [] None.

(** The condition under which the effect on [messages] sets the flag,
    for the length [prev] recorded before. *)
Definition firstToken (prev : Z) (messages : list Message) : bool :=
  negb (Z.of_nat (length messages) =? prev)
  && match last messages with
     | Some m => bool_decide (msg_type m = ai)
     | None => false
     end.

(** The flag is set at some snapshot of a sequence of transcripts. *)
Fixpoint firstTokenSeen (prev : Z) (snapshots : list (list Message)) : bool :=
  match snapshots with
  | [] => false
  | ms :: rest =>
      firstToken prev ms || firstTokenSeen (Z.of_nat (length ms)) rest
  end.

(** The stream delivers a sequence of transcripts. *)
Definition deliveries (snapshots : list (list Message)) : list Event :=
  List.map Messages snapshots.

(** A message has an identifier that starts with the reserved prefix. *)
Definition reserved (prefix : jsstring) (m : Message) : Prop :=
  exists rest, msg_id m = Some (prefix ++ rest).

(** ** Sample data *)

Definition humanHi : Message :=
  mkMessage (Some (js "h1")) human (ContentBlocks [TextBlock (js "hi")])
    [] None.

Definition aiSearch : Message :=
  mkMessage (Some (js "a1")) ai (ContentString [])
    [mkToolCall (js "call-1") (js "search")] None.

Definition toolResult : Message :=
  mkMessage (Some (js "t1")) tool (ContentString (js "42")) []
    (Some (js "call-1")).

Definition sampleCheckpoint : Checkpoint := mkCheckpoint (js "cp-1").

Definition samplePrefix : jsstring := js "do-not-render-".

Definition sampleUuid (n : nat) : jsstring := repeat 0x61%N (S n).

(** A thread with "hi" typed and nothing in flight. *)
Definition typedThread : Thread := setInput (js "hi") initialThread.

(** A thread with the submission of "hi" in flight: the form has been
    submitted, the stream has turned to loading and has echoed the
    human message. *)
Definition busyThread : Thread :=
  run (normalize samplePrefix sampleUuid) typedThread
    [Submit (js "h1"); Loading true; Messages [humanHi]].

(** A thread with only blanks typed. *)
Definition blankThread : Thread := setInput (js "  ") initialThread.

(** The same, with an artifact open that has put a key in the context. *)
Definition contextThread : Thread :=
  setArtifactContext {[ js "selection" := JStr (js "Apple") ]} typedThread.

(** A thread whose stream reports an error with an empty message. *)
Definition silentErrorThread : Thread :=
  setError (ErrObject (JStr [])) initialThread.

(** * The knowledge-graph panel

    [GraphVisualization] fetches /graph-data.json once on mount, turns
    the records into the nodes and relationships that the graph library
    draws, and shows a loading view, an error view or the graph. *)

(** [String(n)] for a safe integer [n]: a double holds it exactly and
    JavaScript prints all its digits.  The results about identities
    assume [safeRecords] below. *)
Definition numberToString (n : Z) : jsstring :=
  js (NilEmpty.string_of_int (Z.to_int n)).

(** [Number.isSafeInteger(n)]: of magnitude below 2^53. *)
Definition safeInteger (n : Z) : bool :=
  (- 2 ^ 53 <? n) && (n <? 2 ^ 53).

(** ** The records of /graph-data.json *)

Record RecordNode := mkRecordNode {
  node_identity : Z;
  node_labels : option (list jsstring);   (* read as labels?.[0] *)
  node_name : option jsstring             (* read as properties?.name *)
}.

Record RecordRelationship := mkRecordRelationship {
  rel_identity : Z;
  rel_start : Z;
  rel_end : Z;
  rel_type : jsstring
}.

(** A row of the query: the fields are tested before they are read. *)
Record GraphRecord := mkGraphRecord {
  rec_seed : option RecordNode;
  rec_r : option (list RecordRelationship);
  rec_m : option RecordNode
}.

(** Every number of the records is a safe integer. *)
Definition safeNode (node : RecordNode) : bool :=
  safeInteger (node_identity node).

Definition safeRelationship (rel : RecordRelationship) : bool :=
  safeInteger (rel_identity rel)
  && safeInteger (rel_start rel) && safeInteger (rel_end rel).

Definition safeRecord (record : GraphRecord) : bool :=
  from_option safeNode true (rec_seed record)
  && from_option (forallb safeRelationship) true (rec_r record)
  && from_option safeNode true (rec_m record).

Definition safeRecords (records : list GraphRecord) : bool :=
  forallb safeRecord records.

(** ** What the graph library draws *)

(** The value found under a key of [labelColors]: one of its own
    colours, or a member that the object inherits from
    [Object.prototype]. *)
Inductive Color :=
  | Hex (code : jsstring)
  | Inherited (member : jsstring).

#[global] Instance Color_eq_dec : EqDecision Color.
Proof. solve_decision. Defined.

Record Node := mkNode {
  n_id : jsstring;
  n_captions : list jsstring;      (* the value of each caption *)
  n_color : Color;
  n_size : Z
}.

#[global] Instance Node_eq_dec : EqDecision Node.
Proof. solve_decision. Defined.

Record Relationship := mkRelationship {
  e_id : jsstring;
  e_from : jsstring;
  e_to : jsstring;
  e_captions : list jsstring;
  e_color : Color
}.

#[global] Instance Relationship_eq_dec : EqDecision Relationship.
Proof. solve_decision. Defined.

Definition objectPrototypeMembers : list jsstring :=
  [js "constructor"; js "hasOwnProperty"; js "isPrototypeOf";
   js "propertyIsEnumerable"; js "toLocaleString"; js "toString";
   js "valueOf"; js "__proto__"; js "__defineGetter__";
   js "__defineSetter__"; js "__lookupGetter__"; js "__lookupSetter__"].

(** [labelColors[key]]; [None] is [undefined]. *)
Definition labelColors (key : jsstring) : option Color :=
  if bool_decide (key = js "Entity") then Some (Hex (js "#4f46e5"))
  else if bool_decide (key = js "Episodic") then Some (Hex (js "#059669"))
  else if bool_decide (key = js "default") then Some (Hex (js "#6366f1"))
  else if bool_decide (key ∈ objectPrototypeMembers)
       then Some (Inherited key)
  else None.

(** [labelColors[label] || labelColors.default] *)
Definition colorOf (label : jsstring) : Color :=
  default (Hex (js "#6366f1")) (labelColors label).

(** [s || fallback] on strings *)
Definition orElse (s : option jsstring) (fallback : jsstring) : jsstring :=
  match s with
  | Some (c :: rest) => c :: rest
  | _ => fallback
  end.

(** [node.labels?.[0] || fallback] *)
Definition labelOf (node : RecordNode) (fallback : jsstring) : jsstring :=
  orElse (node_labels node ≫= head) fallback.

(** [s.replace(/_/g, " ")] *)
Definition spaceUnderscores (s : jsstring) : jsstring :=
  List.map (fun c => if (c =? 0x5F)%N then 0x20%N else c) s.

(** [`Node ${identity}`] *)
Definition nodeFallbackCaption (node : RecordNode) : jsstring :=
  js "Node " ++ numberToString (node_identity node).

(** The node drawn for a seed. *)
Definition seedNode (seed : RecordNode) : Node :=
  mkNode (numberToString (node_identity seed))
    [orElse (spaceUnderscores <$> node_name seed) (nodeFallbackCaption seed)]
    (colorOf (labelOf seed (js "Entity")))
    25.

(** The node drawn for an [m] (episodic) node: [substring(0, 30)] of
    its name. *)
Definition episodicNode (m : RecordNode) : Node :=
  mkNode (numberToString (node_identity m))
    [orElse (take 30 <$> node_name m) (nodeFallbackCaption m)]
    (colorOf (labelOf m (js "Episodic")))
    20.

Definition relationshipOf (rel : RecordRelationship) : Relationship :=
  mkRelationship (numberToString (rel_identity rel))
    (numberToString (rel_start rel)) (numberToString (rel_end rel))
    [rel_type rel] (Hex (js "#64748b")).

(** ** The [Map] of nodes: keys in insertion order *)

Definition NodeMap : Type := list (jsstring * Node).

(** [map.has(key)] *)
Definition mapHas (key : jsstring) (nodeMap : NodeMap) : bool :=
  bool_decide (key ∈ nodeMap.*1).

(** [map.set(key, value)]: a key that is present keeps its place. *)
Fixpoint mapSet (key : jsstring) (value : Node) (nodeMap : NodeMap)
    : NodeMap :=
  match nodeMap with
  | [] => [(key, value)]
  | (k, v) :: rest =>
      if bool_decide (k = key) then (k, value) :: rest
      else (k, v) :: mapSet key value rest
  end.

(** [Array.from(map.values())] *)
Definition mapValues (nodeMap : NodeMap) : list Node := nodeMap.*2.

(** ** The transformation of the records *)

(** [nodeMap], [relSet] and [rels] of [loadGraphData]. *)
Record GraphAcc := mkGraphAcc {
  nodeMap : NodeMap;
  relSet : gset jsstring;
  rels : list Relationship
}.

Definition emptyGraphAcc : GraphAcc := mkGraphAcc [] ∅ [].

(** Add seed node *)
Definition addSeed (record : GraphRecord) (acc : GraphAcc) : GraphAcc :=
  match rec_seed record with
  | Some seed =>
      if negb (mapHas (numberToString (node_identity seed)) (nodeMap acc))
      then mkGraphAcc
             (mapSet (numberToString (node_identity seed)) (seedNode seed)
                (nodeMap acc))
             (relSet acc) (rels acc)
      else acc
  | None => acc
  end.

(** Add m node (episodic) *)
Definition addEpisodic (record : GraphRecord) (acc : GraphAcc) : GraphAcc :=
  match rec_m record with
  | Some m =>
      if negb (mapHas (numberToString (node_identity m)) (nodeMap acc))
      then mkGraphAcc
             (mapSet (numberToString (node_identity m)) (episodicNode m)
                (nodeMap acc))
             (relSet acc) (rels acc)
      else acc
  | None => acc
  end.

Definition addRelationship (acc : GraphAcc) (rel : RecordRelationship)
    : GraphAcc :=
  let relId := numberToString (rel_identity rel) in
  if negb (bool_decide (relId ∈ relSet acc))
  then mkGraphAcc (nodeMap acc) ({[ relId ]} ∪ relSet acc)
         (rels acc ++ [relationshipOf rel])
  else acc.

(** Add relationships *)
Definition addRelationships (record : GraphRecord) (acc : GraphAcc)
    : GraphAcc :=
  match rec_r record with
  | Some r => fold_left addRelationship r acc
  | None => acc
  end.

(** The body of [records.forEach]. *)
Definition addRecord (acc : GraphAcc) (record : GraphRecord) : GraphAcc :=
  addRelationships record (addEpisodic record (addSeed record acc)).

Definition collectGraph (records : list GraphRecord) : GraphAcc :=
  fold_left addRecord records emptyGraphAcc.

(** Limit nodes for performance (take first 100 unique nodes) *)
Definition limitedNodes (acc : GraphAcc) : list Node :=
  take 100 (mapValues (nodeMap acc)).

Definition limitedNodeIds (acc : GraphAcc) : gset jsstring :=
  list_to_set (n_id <$> limitedNodes acc).

(** Filter relationships to only include those between limited nodes *)
Definition limitedRels (acc : GraphAcc) : list Relationship :=
  List.filter
    (fun r => bool_decide (e_from r ∈ limitedNodeIds acc)
              && bool_decide (e_to r ∈ limitedNodeIds acc))
    (rels acc).

(** ** The state of the panel and the load *)

Record GraphState := mkGraphState {
  nodes : list Node;
  relationships : list Relationship;
  loading : bool;
  error : option jsstring;
  selectedNode : option Node
}.

(** The state on mount. *)
Definition initialGraphState : GraphState :=
  mkGraphState [] [] true None None.

(** What a [catch] clause receives: an [Error] with its message, or
    some other value. *)
Inductive Thrown :=
  | ThrownError (message : jsstring)
  | ThrownOther.

(** How the fetch of /graph-data.json ends: the request is rejected, or
    a response comes with its [ok] flag and a body that [response.json()]
    reads into records or fails on. *)
Inductive FetchOutcome :=
  | FetchRejected (err : Thrown)
  | FetchResponse (ok : bool) (body : Thrown + list GraphRecord).

(** The [catch] clause of [loadGraphData]. *)
Definition loadFailed (err : Thrown) (s : GraphState) : GraphState :=
  let message :=
    match err with
    | ThrownError message => message
    | ThrownOther => js "Unknown error"
    end in
  mkGraphState (nodes s) (relationships s) false (Some message)
    (selectedNode s).

Definition loadGraphData (outcome : FetchOutcome) (s : GraphState)
    : GraphState :=
  match outcome with
  | FetchRejected err => loadFailed err s
  | FetchResponse false _ =>
      loadFailed (ThrownError (js "Failed to load graph data")) s
  | FetchResponse true (inl err) => loadFailed err s
  | FetchResponse true (inr records) =>
      let acc := collectGraph records in
      let selected :=
        (* Auto-select the first node *)
        match limitedNodes acc with
        | first :: _ => Some first
        | [] => selectedNode s
        end in
      mkGraphState (limitedNodes acc) (limitedRels acc) false (error s)
        selected
  end.

(** [handleNodeClick] *)
Definition handleNodeClick (node : Node) (s : GraphState) : GraphState :=
  mkGraphState (nodes s) (relationships s) (loading s) (error s) (Some node).

(** What the panel renders. *)
Inductive GraphView :=
  | LoadingView
  | ErrorView (message : jsstring)
  | GraphCanvas (nodes : list Node) (rels : list Relationship)
      (selected : option (jsstring * jsstring))   (* id and label shown *)
      (nodeCount relCount : nat).                 (* the stats line *)

(** [selectedNode.captions?.[0]?.value || "N/A"] *)
Definition selectedLabel (node : Node) : jsstring :=
  orElse (head (n_captions node)) (js "N/A").

Definition renderGraph (s : GraphState) : GraphView :=
  if loading s then LoadingView
  else
    match error s with
    | Some (c :: rest) => ErrorView (c :: rest)
    | _ =>
        GraphCanvas (nodes s) (relationships s)
          ((fun node => (n_id node, selectedLabel node)) <$> selectedNode s)
          (length (nodes s)) (length (relationships s))
    end.

(** The identities that a record mentions as nodes, seed first. *)
Definition recordIdentities (record : GraphRecord) : list Z :=
  option_list (node_identity <$> rec_seed record)
  ++ option_list (node_identity <$> rec_m record).

Definition graphIdentities (records : list GraphRecord) : list Z :=
  records ≫= recordIdentities.


(** The distinct identities of a list, in the order of their first
    mention. *)
Definition addIdentity (seen : list Z) (i : Z) : list Z :=
  if bool_decide (i ∈ seen) then seen else seen ++ [i].

Definition distinctIdentities (l : list Z) : list Z :=
  fold_left addIdentity l [].

(** The accumulator of [loadGraphData] is consistent: a node sits under
    its own id, no key and no relationship id occurs twice, and
    [relSet] holds the ids of [rels]. *)
Definition graphAccOk (acc : GraphAcc) : Prop :=
  NoDup (nodeMap acc).*1
  /\ Forall (fun kv => n_id kv.2 = kv.1) (nodeMap acc)
  /\ NoDup (e_id <$> rels acc)
  /\ (forall id, id ∈ relSet acc <-> id ∈ e_id <$> rels acc).

(** A node has exactly one caption, and it is not empty. *)
Definition labelled (node : Node) : Prop :=
  exists caption, n_captions node = [caption] /\ caption <> [].

(** What one record adds to the map of nodes. *)
Definition seedEntry (record : GraphRecord) (l : NodeMap) : NodeMap :=
  match rec_seed record with
  | Some seed =>
      if bool_decide (numberToString (node_identity seed) ∈ l.*1) then []
      else [(numberToString (node_identity seed), seedNode seed)]
  | None => []
  end.

Definition episodicEntry (record : GraphRecord) (l : NodeMap) : NodeMap :=
  match rec_m record with
  | Some m =>
      if bool_decide (numberToString (node_identity m) ∈ l.*1) then []
      else [(numberToString (node_identity m), episodicNode m)]
  | None => []
  end.

(** The relationships that the records list, in order. *)
Definition recordRelationships (records : list GraphRecord)
    : list RecordRelationship :=
  records ≫= (fun record => default [] (rec_r record)).

(** [node] is drawn for the first mention of its identity in
    [records]: the record [record], which no earlier record anticipates,
    mentions it as its seed, or as its [m] while its seed is another
    node. *)
Definition firstMention (records : list GraphRecord) (node : Node) : Prop :=
  exists before record after,
    records = before ++ record :: after
    /\ (n_id node ∉ (numberToString <$> graphIdentities before))
    /\ ((exists seed, rec_seed record = Some seed /\ node = seedNode seed)
        \/ (exists m, rec_m record = Some m /\ node = episodicNode m
                      /\ forall seed, rec_seed record = Some seed ->
                           node_identity seed <> node_identity m)).

(** * What the thread renders *)

Section ThreadView.

Variable DO_NOT_RENDER_ID_PREFIX : jsstring.
Variable ensureToolCallsHaveResponses : list Message -> list Message.

(** [!!threadId || !!messages.length] *)
Definition chatStarted (s : Thread) : bool :=
  match threadId s with
  | Some (_ :: _) => true
  | _ => false
  end
  || negb (Nat.eqb (length (stream_messages s)) 0).

(** [!messages.find((m) => m.type === "ai" || m.type === "tool")] *)
Definition hasNoAIOrToolMessages (messages : list Message) : bool :=
  match List.find
          (fun m => bool_decide (msg_type m = ai)
                    || bool_decide (msg_type m = tool)) messages with
  | Some _ => false
  | None => true
  end.

(** The [type] of a message as a string. *)
Definition typeName (t : MessageType) : jsstring :=
  match t with
  | human => js "human"
  | ai => js "ai"
  | tool => js "tool"
  | system => js "system"
  end.

(** [message.id || `${message.type}-${index}`] *)
Definition messageKey (index : nat) (message : Message) : jsstring :=
  orElse (msg_id message)
    (typeName (msg_type message) ++ js "-"
     ++ numberToString (Z.of_nat index)).

(** The entries of the transcript as they are rendered. *)
Inductive MessageElement :=
  | HumanMessageElement (key : jsstring) (message : Message)
      (isLoading : bool)
  | AssistantMessageElement (key : jsstring) (message : option Message)
      (isLoading : bool)
  | AssistantMessageLoadingElement.

Definition messageElement (isLoading : bool) (index : nat)
    (message : Message) : MessageElement :=
  if bool_decide (msg_type message = human)
  then HumanMessageElement (messageKey index message) message isLoading
  else AssistantMessageElement (messageKey index message) (Some message)
         isLoading.

(** The [content] of the scroll area; [interrupt] is [!!stream.interrupt]. *)
Definition threadContent (interrupt : bool) (s : Thread)
    : list MessageElement :=
  imap (messageElement (stream_isLoading s))
    (visibleMessages DO_NOT_RENDER_ID_PREFIX (stream_messages s))
  ++ (if hasNoAIOrToolMessages (stream_messages s) && interrupt
      then [AssistantMessageElement (js "interrupt-msg") None
              (stream_isLoading s)]
      else [])
  ++ (if stream_isLoading s && negb (firstTokenReceived s)
      then [AssistantMessageLoadingElement]
      else []).

(** The button at the end of the form. *)
Inductive SubmitControl :=
  | CancelButton
  | SendButton (disabled : bool).

Definition submitControl (s : Thread) : SubmitControl :=
  if stream_isLoading s then CancelButton
  else SendButton
         (stream_isLoading s
          || (Nat.eqb (length (trim (input s))) 0
              && Nat.eqb (length (contentBlocks s)) 0)).

(** The fields of a keyboard event that [onKeyDown] reads. *)
Record KeyboardEvent := mkKeyboardEvent {
  key : jsstring;
  shiftKey : bool;
  metaKey : bool;
  isComposing : bool
}.

(** [onKeyDown] of the textarea: [form.requestSubmit()] raises the
    submit event of the form, whose handler is [handleSubmit]. *)
Definition handleKeyDown (uuid : jsstring) (e : KeyboardEvent) (s : Thread)
    : Thread :=
  if bool_decide (key e = js "Enter")
     && negb (shiftKey e) && negb (metaKey e) && negb (isComposing e)
  then
    let s := emit PreventDefault s in
    handleSubmit ensureToolCallsHaveResponses uuid s
  else s.

End ThreadView.

(** The optimistic update of a call appends to the transcript exactly
    the messages that the call sends, and keeps the other keys; a call
    without a payload has no optimistic update. *)
Definition appendsWhatItSends (e : Effect) : Prop :=
  match e with
  | StreamSubmit (Some payload) options =>
      exists optimistic,
        o_optimisticValues options = Some optimistic
        /\ forall prev,
             v_messages (optimistic prev)
             = Some (default [] (v_messages prev) ++ p_messages payload)
             /\ v_rest (optimistic prev) = v_rest prev
  | StreamSubmit None options => o_optimisticValues options = None
  | _ => True
  end.

(** The deduplication key is cleared, or it is the message of the
    notification shown last. *)
Definition lastErrorInSync (s : Thread) : Prop :=
  lastError s = JUndefined
  \/ (truthy (lastError s) = true
      /\ last (notifications (trace s)) = Some (lastError s)).

(** An event that neither regenerates nor ends the loading. *)
Definition keepsLoading (ev : Event) : bool :=
  match ev with
  | Regenerate _ => false
  | Loading isLoading => isLoading
  | _ => true
  end.

(** Sample records: Apple (seed) mentioned by two filings. *)
Definition appleNode : RecordNode :=
  mkRecordNode 7 (Some [js "Entity"]) (Some (js "Apple_Inc")).

Definition filingNode : RecordNode :=
  mkRecordNode 12 (Some [js "Episodic"]) (Some (js "10-K 2024")).

Definition sampleRecords : list GraphRecord :=
  [mkGraphRecord (Some appleNode)
     (Some [mkRecordRelationship 1 7 12 (js "MENTIONS")])
     (Some filingNode);
   mkGraphRecord (Some filingNode)
     (Some [mkRecordRelationship 1 7 12 (js "MENTIONS")])
     (Some appleNode)].

(** * Properties *)

(** ** The [normalize] of the specification is idempotent *)

Section NormalizeFacts.

Variable DO_NOT_RENDER_ID_PREFIX : jsstring.

Local Abbreviation synthesize := (synthesize DO_NOT_RENDER_ID_PREFIX).
Local Abbreviation pairUp := (pairUp DO_NOT_RENDER_ID_PREFIX).
Local Abbreviation normalize := (normalize DO_NOT_RENDER_ID_PREFIX).

Lemma covered_refl p : covered p p.
Proof.
  apply Forall_forall. intros tc Htc.
  apply in_map. by apply list_elem_of_In.
Qed.

Lemma covered_nil_r p : covered p [] -> p = [].
Proof.
  destruct p as [|tc p]; [done|].
  intros H. apply Forall_cons in H as [[] _].
Qed.

Lemma unanswered_In m p tc :
  In tc (unanswered m p) <-> In tc p /\ answers m tc = false.
Proof.
  unfold unanswered. rewrite filter_In, negb_true_iff. done.
Qed.

Lemma covered_unanswered m p q :
  covered p q -> covered (unanswered m p) (unanswered m q).
Proof.
  unfold covered. rewrite !Forall_forall. intros H tc Htc.
  apply list_elem_of_In, unanswered_In in Htc as [Hin Hans].
  apply list_elem_of_In, H, in_map_iff in Hin as (tc' & Hid & Hin').
  apply in_map_iff. exists tc'. split; [done|].
  apply unanswered_In. split; [done|].
  unfold answers in *. by rewrite Hid.
Qed.

Lemma covered_toolResponse u n tc p q :
  covered p (tc :: q) ->
  covered (unanswered (toolResponse DO_NOT_RENDER_ID_PREFIX u n tc) p) q.
Proof.
  unfold covered. rewrite !Forall_forall. intros H c Hc.
  apply list_elem_of_In, unanswered_In in Hc as [Hin Hans].
  apply list_elem_of_In, H in Hin. simpl in Hin.
  destruct Hin as [Heq|Hin]; [|done].
  unfold answers in Hans. simpl in Hans.
  rewrite Heq in Hans. by rewrite bool_decide_eq_false in Hans.
Qed.

(** A second pass walks over synthetic responses without a change, and
    is left with no invocation that they cover. *)
Lemma pairUp_synthesize u u' q : forall n n' p rest,
  covered p q ->
  pairUp u' n' p (synthesize u n q ++ rest)
  = synthesize u n q ++ pairUp u' n' [] rest.
Proof.
  induction q as [|tc q IH]; intros n n' p rest Hcov.
  - by rewrite (covered_nil_r p Hcov).
  - simpl. f_equal. apply IH. by apply covered_toolResponse.
Qed.

Lemma pairUp_idem u u' : forall t n n' p q,
  covered p q ->
  pairUp u' n' p (pairUp u n q t) = pairUp u n q t.
Proof.
  induction t as [|m t IH]; intros n n' p q Hcov.
  - simpl. rewrite <- (app_nil_r (synthesize u n q)) at 1.
    rewrite pairUp_synthesize by done. simpl. by rewrite app_nil_r.
  - simpl. destruct (isToolMessage m) eqn:Hm.
    + simpl. rewrite Hm. f_equal. apply IH. by apply covered_unanswered.
    + rewrite pairUp_synthesize by done. simpl. rewrite Hm. simpl.
      do 2 f_equal. apply IH, covered_refl.
Qed.

Lemma normalize_idem u u' t :
  normalize u' (normalize u t) = normalize u t.
Proof. apply pairUp_idem, covered_refl. Qed.

(** The pass restores the pairing invariant. *)
Lemma toolRun_synthesize u q : forall n rest,
  toolRun (synthesize u n q ++ rest) = synthesize u n q ++ toolRun rest.
Proof. induction q as [|tc q IH]; intros n rest; simpl; [done|]. by rewrite IH. Qed.

Lemma synthesize_answers u q : forall n tc rest,
  In tc q ->
  existsb (fun r => answers r tc) (synthesize u n q ++ rest) = true.
Proof.
  induction q as [|c q IH]; intros n tc rest Hin; [done|].
  destruct Hin as [Heq|Hin]; simpl.
  - subst c. unfold answers at 1. simpl. by rewrite bool_decide_eq_true_2.
  - rewrite (IH _ _ _ Hin). apply orb_true_r.
Qed.

Lemma pairUp_answers u : forall t n q tc,
  In tc q ->
  existsb (fun r => answers r tc) (toolRun (pairUp u n q t)) = true.
Proof.
  induction t as [|m t IH]; intros n q tc Hin; simpl.
  - rewrite <- (app_nil_r (synthesize u n q)), toolRun_synthesize.
    by apply synthesize_answers.
  - destruct (isToolMessage m) eqn:Hm.
    + simpl. rewrite Hm. simpl.
      destruct (answers m tc) eqn:Hans; [done|]. simpl.
      apply IH, unanswered_In. done.
    + rewrite toolRun_synthesize. by apply synthesize_answers.
Qed.

Lemma paired_synthesize u q : forall n rest,
  paired (synthesize u n q ++ rest) = paired rest.
Proof. induction q as [|tc q IH]; intros n rest; simpl; [done|]. apply IH. Qed.

Lemma invocations_tool m : isToolMessage m = true -> invocations m = [].
Proof.
  unfold isToolMessage, invocations. intros Hm.
  apply bool_decide_eq_true in Hm. rewrite Hm. done.
Qed.

Lemma pairUp_paired u : forall t n q, paired (pairUp u n q t) = true.
Proof.
  induction t as [|m t IH]; intros n q; simpl.
  - rewrite <- (app_nil_r (synthesize u n q)). by rewrite paired_synthesize.
  - destruct (isToolMessage m) eqn:Hm.
    + simpl. rewrite (invocations_tool m Hm). simpl. apply IH.
    + rewrite paired_synthesize. simpl. rewrite IH, andb_true_r.
      apply forallb_forall. intros tc Htc. by apply pairUp_answers.
Qed.

Lemma normalize_paired u t : paired (normalize u t) = true.
Proof. apply pairUp_paired. Qed.

(** A transcript that is paired already is left as it is. *)
Lemma pairUp_fixed u : forall t n,
  paired t = true -> pairUp u n [] t = t.
Proof.
  assert (Hgen : forall t n q,
    paired t = true ->
    forallb (fun tc => existsb (fun r => answers r tc) (toolRun t)) q = true ->
    pairUp u n q t = t).
  { induction t as [|m t IH]; intros n q Hp Hq; simpl in *.
    - destruct q as [|tc q]; [done|]. simpl in Hq. done.
    - apply andb_true_iff in Hp as [Hm Hp].
      destruct (isToolMessage m) eqn:Htool.
      + f_equal. apply IH; [done|].
        apply forallb_forall. intros tc Htc.
        apply unanswered_In in Htc as [Hin Hans].
        rewrite forallb_forall in Hq. specialize (Hq tc Hin).
        simpl in Hq. by rewrite Hans in Hq.
      + destruct q as [|tc q]; [|simpl in Hq; done].
        simpl. f_equal. by apply IH. }
  intros t n Hp. by apply Hgen.
Qed.

(** The transcripts that the normalizer leaves alone are the paired
    ones. *)
Lemma normalize_fixed_iff u t : normalize u t = t <-> paired t = true.
Proof.
  split.
  - intros <-. apply normalize_paired.
  - apply pairUp_fixed.
Qed.

End NormalizeFacts.

(** ** The component *)

Section ThreadFacts.

Variable ensureToolCallsHaveResponses : list Message -> list Message.

Local Abbreviation handleSubmit := (handleSubmit ensureToolCallsHaveResponses).
Local Abbreviation step := (step ensureToolCallsHaveResponses).
Local Abbreviation run := (run ensureToolCallsHaveResponses).

Lemma handleSubmit_rejected uuid s :
  submitAccepted s = false -> handleSubmit uuid s = emit PreventDefault s.
Proof.
  unfold submitAccepted, handleSubmit. simpl.
  intros H. apply negb_false_iff in H. by rewrite H.
Qed.

Lemma handleSubmit_accepted uuid s :
  submitAccepted s = true ->
  handleSubmit uuid s =
  let toolMessages := ensureToolCallsHaveResponses (stream_messages s) in
  let context :=
    if Nat.ltb 0 (length (objectKeys (artifactContext s)))
    then Some (artifactContext s) else None in
  mkThread (artifactContext s) (artifactOpen s) (threadId s) [] false []
    (lastError s) (prevMessageLength s) (stream_messages s)
    (stream_isLoading s) (stream_error s)
    ((trace s ++ [PreventDefault]) ++
     [StreamSubmit
        (Some (mkPayload (toolMessages ++ [humanMessage uuid s]) context))
        (submitOptions None
           (Some (fun prev =>
              mkValues
                (Some (default [] (v_messages prev)
                       ++ toolMessages ++ [humanMessage uuid s]))
                context (v_rest prev))))]).
Proof.
  unfold submitAccepted, handleSubmit. simpl.
  intros H. apply negb_true_iff in H. by rewrite H.
Qed.

Lemma submissions_app tr1 tr2 :
  submissions (tr1 ++ tr2) = submissions tr1 ++ submissions tr2.
Proof. apply omap_app. Qed.

Lemma notifications_app tr1 tr2 :
  notifications (tr1 ++ tr2) = notifications tr1 ++ notifications tr2.
Proof. apply omap_app. Qed.

(** C1: when the trimmed input is empty and no content block is
    pending, [handleSubmit] returns before [stream.submit]: no call is
    added to the trace, [firstTokenReceived] is not reset, and the
    transcript, the loading status, the input and the pending blocks
    are what they were. *)
Theorem handleSubmit_empty_is_noop uuid s :
  length (trim (input s)) = 0%nat ->
  length (contentBlocks s) = 0%nat ->
  let s' := handleSubmit uuid s in
  trace s' = trace s ++ [PreventDefault]
  /\ submissions (trace s') = submissions (trace s)
  /\ firstTokenReceived s' = firstTokenReceived s
  /\ stream_messages s' = stream_messages s
  /\ stream_isLoading s' = stream_isLoading s
  /\ input s' = input s
  /\ contentBlocks s' = contentBlocks s.
Proof.
  intros Hin Hblocks s'. subst s'.
  rewrite handleSubmit_rejected.
  - simpl. rewrite submissions_app. simpl. by rewrite app_nil_r.
  - unfold submitAccepted. by rewrite Hin, Hblocks.
Qed.

(** C4: [handleRegenerate(C)] resets [firstTokenReceived], takes one
    off [prevMessageLength], and calls [stream.submit] once, with
    [undefined] for the payload and [C] for the checkpoint. *)
Theorem handleRegenerate_bookkeeping (C : option Checkpoint) s :
  let s' := handleRegenerate C s in
  firstTokenReceived s' = false
  /\ prevMessageLength s' = prevMessageLength s - 1
  /\ trace s' = trace s ++ [StreamSubmit None (submitOptions C None)]
  /\ submissions (trace s')
     = submissions (trace s) ++ [(None, submitOptions C None)]
  /\ o_checkpoint (submitOptions C None) = C
  /\ o_optimisticValues (submitOptions C None) = None.
Proof.
  simpl. rewrite submissions_app. done.
Qed.

Lemma handleSubmit_loading uuid s :
  stream_isLoading s = true -> handleSubmit uuid s = emit PreventDefault s.
Proof.
  intros H. apply handleSubmit_rejected. unfold submitAccepted.
  by rewrite H, orb_true_r.
Qed.

Lemma handleSuggestedPrompt_loading uuid prompt s :
  stream_isLoading s = true -> handleSuggestedPrompt uuid prompt s = s.
Proof. unfold handleSuggestedPrompt. by intros ->. Qed.

(** C7: while a submission is in flight, [handleSubmit] and
    [handleSuggestedPrompt] return without a call and without a change
    of state, but [handleRegenerate] has no such guard: on
    [busyThread], where the one submission made is still in flight, it
    takes one off [prevMessageLength] and calls [stream.submit] a
    second time. *)
Theorem handleRegenerate_while_loading :
  (forall uuid s, stream_isLoading s = true ->
     handleSubmit uuid s = emit PreventDefault s)
  /\ (forall uuid prompt s, stream_isLoading s = true ->
        handleSuggestedPrompt uuid prompt s = s)
  /\ stream_isLoading busyThread = true
  /\ length (submissions (trace busyThread)) = 1%nat
  /\ (exists first,
        submissions
          (trace (handleRegenerate (Some sampleCheckpoint) busyThread))
        = [first; (None, submitOptions (Some sampleCheckpoint) None)])
  /\ prevMessageLength busyThread = 1
  /\ prevMessageLength (handleRegenerate (Some sampleCheckpoint) busyThread)
     = 0.
Proof.
  split; [apply handleSubmit_loading|].
  split; [apply handleSuggestedPrompt_loading|].
  repeat split. vm_compute. by eexists.
Qed.

(** C10: when [stream.error] is set and its [message] is falsy (no
    message, an empty string, or an error that is not an object with a
    message), the effect shows no notification and leaves [lastError]
    as it is: the state does not change at all. *)
Theorem errorEffect_falsy_message s :
  error_truthy (stream_error s) = true ->
  (forall message, error_message (stream_error s) = Some message ->
     truthy message = false) ->
  errorEffect s = s
  /\ notifications (trace (errorEffect s)) = notifications (trace s)
  /\ lastError (errorEffect s) = lastError s.
Proof.
  intros Herr Hmsg.
  assert (errorEffect s = s) as ->; [|done].
  unfold errorEffect. rewrite Herr. simpl.
  destruct (error_message (stream_error s)) as [message|] eqn:E; [|done].
  by rewrite (Hmsg message eq_refl).
Qed.

(** *** First-token tracking *)

Lemma firstToken_guard prev (messages : list Message) :
  negb (Z.of_nat (length messages) =? prev)
  && negb (Nat.eqb (length messages) 0)
  && match last messages with
     | Some m => bool_decide (msg_type m = ai)
     | None => false
     end
  = firstToken prev messages.
Proof.
  unfold firstToken. destruct messages as [|m l]; simpl.
  - by rewrite !andb_false_r.
  - by rewrite andb_true_r.
Qed.

Lemma messagesEffect_flag s :
  firstTokenReceived (messagesEffect s)
  = firstTokenReceived s
    || firstToken (prevMessageLength s) (stream_messages s).
Proof.
  unfold messagesEffect. rewrite firstToken_guard.
  destruct (firstToken _ _); simpl; [by rewrite orb_true_r|].
  by rewrite orb_false_r.
Qed.

Lemma messagesEffect_prev s :
  prevMessageLength (messagesEffect s)
  = Z.of_nat (length (stream_messages s)).
Proof. done. Qed.

Lemma messagesEffect_trace s : trace (messagesEffect s) = trace s.
Proof. unfold messagesEffect. by destruct (_ && _). Qed.

Lemma messagesEffect_lastError s :
  lastError (messagesEffect s) = lastError s.
Proof. unfold messagesEffect. by destruct (_ && _). Qed.

Lemma messagesEffect_context s :
  artifactContext (messagesEffect s) = artifactContext s.
Proof. unfold messagesEffect. by destruct (_ && _). Qed.

Lemma errorEffect_untouched s :
  firstTokenReceived (errorEffect s) = firstTokenReceived s
  /\ prevMessageLength (errorEffect s) = prevMessageLength s
  /\ stream_messages (errorEffect s) = stream_messages s
  /\ artifactContext (errorEffect s) = artifactContext s.
Proof.
  unfold errorEffect.
  destruct (negb _); [done|].
  destruct (error_message _) as [message|]; [|done].
  by destruct (_ || _).
Qed.

Lemma run_cons s ev evs : run s (ev :: evs) = run (step s ev) evs.
Proof. done. Qed.

Lemma run_nil s : run s [] = s.
Proof. done. Qed.

Lemma step_messages s ms :
  step s (Messages ms) = messagesEffect (setMessages ms s).
Proof. done. Qed.

Lemma step_error s e : step s (Errored e) = errorEffect (setError e s).
Proof. done. Qed.

Lemma delivery_flag s ms :
  firstTokenReceived (step s (Messages ms))
  = firstTokenReceived s || firstToken (prevMessageLength s) ms.
Proof. by rewrite step_messages, messagesEffect_flag. Qed.

Lemma delivery_prev s ms :
  prevMessageLength (step s (Messages ms)) = Z.of_nat (length ms).
Proof. by rewrite step_messages, messagesEffect_prev. Qed.

Lemma deliveries_flag snapshots : forall s,
  firstTokenReceived (run s (deliveries snapshots))
  = firstTokenReceived s
    || firstTokenSeen (prevMessageLength s) snapshots.
Proof.
  induction snapshots as [|ms rest IH]; intros s.
  - simpl. by rewrite orb_false_r.
  - change (deliveries (ms :: rest)) with (Messages ms :: deliveries rest).
    rewrite run_cons, IH, delivery_flag, delivery_prev. simpl.
    by rewrite orb_assoc.
Qed.

(** C2, amended: the effect on [messages] sets [firstTokenReceived]
    when the length of the transcript differs from the recorded one
    and the last entry is an ai message, and leaves the flag as it is
    otherwise; over a sequence of transcripts that the stream delivers
    the flag is true exactly when it was true before or one of them met
    that condition.  Every submission that goes through, and every
    regeneration, resets it. *)
Theorem firstTokenReceived_tracking :
  (forall s m,
     Z.of_nat (length (stream_messages s)) <> prevMessageLength s ->
     last (stream_messages s) = Some m -> msg_type m = ai ->
     firstTokenReceived (messagesEffect s) = true)
  /\ (forall s,
        firstToken (prevMessageLength s) (stream_messages s) = false ->
        firstTokenReceived (messagesEffect s) = firstTokenReceived s)
  /\ (forall s snapshots,
        firstTokenReceived (run s (deliveries snapshots))
        = firstTokenReceived s
          || firstTokenSeen (prevMessageLength s) snapshots)
  /\ (forall uuid s, submitAccepted s = true ->
        firstTokenReceived (handleSubmit uuid s) = false)
  /\ (forall uuid prompt s, stream_isLoading s = false ->
        firstTokenReceived (handleSuggestedPrompt uuid prompt s) = false)
  /\ (forall C s, firstTokenReceived (handleRegenerate C s) = false).
Proof.
  repeat split.
  - intros s m Hlen Hlast Hai. rewrite messagesEffect_flag.
    unfold firstToken. rewrite Hlast, bool_decide_eq_true_2 by done.
    apply Z.eqb_neq in Hlen. rewrite Hlen. apply orb_true_r.
  - intros s H. rewrite messagesEffect_flag, H. apply orb_false_r.
  - intros s snapshots. apply deliveries_flag.
  - intros uuid s H. by rewrite handleSubmit_accepted.
  - intros uuid prompt s H. unfold handleSuggestedPrompt. by rewrite H.
Qed.

(** *** Error notifications *)

Lemma strict_eq_true a b : strict_eq a b = true <-> a = b.
Proof.
  destruct a, b; simpl; try (split; [discriminate|congruence]);
    try done.
  - rewrite Bool.eqb_true_iff. split; congruence.
  - rewrite Z.eqb_eq. split; congruence.
  - rewrite bool_decide_eq_true. split; congruence.
  - rewrite Nat.eqb_eq. split; congruence.
Qed.

Lemma strict_eq_false a b : a <> b -> strict_eq a b = false.
Proof.
  intros H. destruct (strict_eq a b) eqn:E; [|done].
  by apply strict_eq_true in E.
Qed.

Lemma truthy_text (text : jsstring) : text <> [] -> truthy (JStr text) = true.
Proof. by destruct text. Qed.

(** The stream reports an error that has the message [text]. *)
Lemma new_error_notifies s (text : jsstring) :
  text <> [] -> lastError s <> JStr text ->
  let s' := step s (Errored (ErrObject (JStr text))) in
  trace s' = trace s ++ [ToastError (JStr text)]
  /\ lastError s' = JStr text.
Proof.
  intros Htext Hlast s'. subst s'. rewrite step_error.
  unfold errorEffect. simpl.
  rewrite strict_eq_false by done.
  destruct text; [done|]. done.
Qed.

Lemma same_error_suppressed s (text : jsstring) :
  lastError s = JStr text ->
  let s' := step s (Errored (ErrObject (JStr text))) in
  trace s' = trace s /\ lastError s' = JStr text.
Proof.
  intros Hlast s'. subst s'. rewrite step_error.
  unfold errorEffect. simpl.
  rewrite (proj2 (strict_eq_true _ _)) by done.
  by rewrite orb_true_r.
Qed.

Lemma cleared_error_resets s e :
  error_truthy e = false ->
  let s' := step s (Errored e) in
  trace s' = trace s /\ lastError s' = JUndefined.
Proof.
  intros He s'. subst s'. rewrite step_error.
  unfold errorEffect. simpl. by rewrite He.
Qed.

(** C3, amended: for a message text that is not empty, two errors in
    a row with that text give exactly one notification (none when the
    text is the one surfaced last); an error whose text differs from
    the one surfaced last gives a new notification; and after the
    error has been cleared, an error with the same text notifies
    again. *)
Theorem error_notified_once_per_text (text : jsstring) s :
  text <> [] ->
  let err := ErrObject (JStr text) in
  (lastError s <> JStr text ->
     notifications (trace (step s (Errored err)))
     = notifications (trace s) ++ [JStr text]
     /\ notifications (trace (run s [Errored err; Errored err]))
        = notifications (trace s) ++ [JStr text])
  /\ (lastError s = JStr text ->
        notifications (trace (run s [Errored err; Errored err]))
        = notifications (trace s))
  /\ (forall cleared, error_truthy cleared = false ->
        notifications (trace (run s [Errored cleared; Errored err]))
        = notifications (trace s) ++ [JStr text]).
Proof.
  intros Htext err. subst err. split; [|split].
  - intros Hlast.
    destruct (new_error_notifies s text Htext Hlast) as [Ht Hl].
    split.
    + rewrite Ht. by rewrite notifications_app.
    + destruct (same_error_suppressed _ text Hl) as [Ht' _].
      rewrite !run_cons, run_nil, Ht', Ht. by rewrite notifications_app.
  - intros Hlast.
    destruct (same_error_suppressed s text Hlast) as [Ht Hl].
    destruct (same_error_suppressed _ text Hl) as [Ht' _].
    by rewrite !run_cons, run_nil, Ht', Ht.
  - intros cleared Hc.
    destruct (cleared_error_resets s cleared Hc) as [Ht Hl].
    assert (Hne : lastError (step s (Errored cleared)) <> JStr text)
      by (rewrite Hl; discriminate).
    destruct (new_error_notifies _ text Htext Hne) as [Ht' _].
    rewrite !run_cons, run_nil, Ht', Ht. by rewrite notifications_app.
Qed.

(** *** The artifact context *)

Lemma objectKeys_length (c : ArtifactContext) :
  length (objectKeys c) = size c.
Proof. unfold objectKeys. by rewrite length_fmap, length_map_to_list. Qed.

Lemma objectKeys_empty (c : ArtifactContext) :
  c = ∅ -> Nat.ltb 0 (length (objectKeys c)) = false.
Proof. intros ->. done. Qed.

Lemma objectKeys_some (c : ArtifactContext) k :
  is_Some (c !! k) -> Nat.ltb 0 (length (objectKeys c)) = true.
Proof.
  intros Hk. apply Nat.ltb_lt. rewrite objectKeys_length.
  pose proof (map_size_ne_0_lookup_2 c k Hk). lia.
Qed.

(** C5: a submission of [handleSubmit] carries the artifact context
    when it has at least one key, and then in the payload and in the
    optimistic update alike; when it is empty, [context] is
    [undefined] in both, and never an empty object. *)
Theorem context_attached_when_nonempty uuid s :
  submitAccepted s = true ->
  exists payload options optimistic,
    trace (handleSubmit uuid s)
    = trace s ++ [PreventDefault; StreamSubmit (Some payload) options]
    /\ o_optimisticValues options = Some optimistic
    /\ ((exists k, is_Some (artifactContext s !! k)) ->
          p_context payload = Some (artifactContext s)
          /\ forall prev,
               v_context (optimistic prev) = Some (artifactContext s))
    /\ (artifactContext s = ∅ ->
          p_context payload = None
          /\ forall prev, v_context (optimistic prev) = None)
    /\ p_context payload <> Some ∅
    /\ forall prev, v_context (optimistic prev) <> Some ∅.
Proof.
  intros Hacc. rewrite (handleSubmit_accepted uuid s Hacc).
  cbv zeta. eexists _, _, _. simpl.
  split; [by rewrite <- app_assoc|].
  split; [done|]. simpl.
  split; [|split].
  - intros [k Hk]. by rewrite (objectKeys_some _ k Hk).
  - intros Hempty. by rewrite (objectKeys_empty _ Hempty).
  - destruct (Nat.ltb 0 (length (objectKeys (artifactContext s)))) eqn:E.
    + assert (artifactContext s <> ∅).
      { intros Hempty. by rewrite (objectKeys_empty _ Hempty) in E. }
      split; [|intros _]; congruence.
    + split; [|intros _]; discriminate.
Qed.

(** The trace of an effect on the stream error. *)
Lemma errorEffect_trace s :
  exists new, trace (errorEffect s) = trace s ++ new
              /\ Forall (fun e => sentContext e = None) new.
Proof.
  unfold errorEffect. destruct (negb _).
  - exists []. by rewrite app_nil_r.
  - destruct (error_message _) as [message|].
    + destruct (_ || _).
      * exists []. by rewrite app_nil_r.
      * eexists. split; [done|]. by repeat constructor.
    + exists []. by rewrite app_nil_r.
Qed.

(** Whatever the entry point, a context that goes out with a call is
    the artifact context, and it has a key. *)
Lemma step_sends_nonempty_context s ev :
  exists new,
    trace (step s ev) = trace s ++ new
    /\ Forall (fun e => forall c, sentContext e = Some c ->
                 c = artifactContext s /\ c <> ∅) new.
Proof.
  destruct ev as [uuid|uuid prompt|cp|id|text|blocks|ms|b|e].
  - change (step s (Submit uuid)) with (handleSubmit uuid s).
    destruct (submitAccepted s) eqn:Hacc.
    + rewrite (handleSubmit_accepted uuid s Hacc). simpl.
      eexists. split; [by rewrite <- app_assoc|].
      constructor; [done|]. constructor; [|done]. simpl.
      destruct (Nat.ltb 0 _) eqn:E; [|done].
      intros c [= <-]. split; [done|].
      intros Hempty. by rewrite (objectKeys_empty _ Hempty) in E.
    + rewrite (handleSubmit_rejected uuid s Hacc). simpl.
      eexists. split; [done|]. by repeat constructor.
  - simpl. unfold handleSuggestedPrompt.
    destruct (stream_isLoading s); simpl.
    + exists []. by rewrite app_nil_r.
    + eexists. split; [done|]. by repeat constructor.
  - simpl. eexists. split; [done|]. by repeat constructor.
  - exists []. simpl. by rewrite app_nil_r.
  - exists []. simpl. by rewrite app_nil_r.
  - exists []. simpl. by rewrite app_nil_r.
  - rewrite step_messages, messagesEffect_trace.
    exists []. simpl. by rewrite app_nil_r.
  - exists []. simpl. by rewrite app_nil_r.
  - rewrite step_error.
    destruct (errorEffect_trace (setError e s)) as (new & -> & Hnew).
    exists new. split; [done|].
    eapply Forall_impl; [exact Hnew|]. intros x -> c. discriminate.
Qed.

(** One step of the component from an empty artifact context: the
    context stays empty, the trace grows, and no new call carries a
    context. *)
Lemma step_empty_context s ev :
  artifactContext s = ∅ ->
  artifactContext (step s ev) = ∅
  /\ exists new, trace (step s ev) = trace s ++ new
                 /\ Forall (fun e => sentContext e = None) new.
Proof.
  intros Hctx. destruct ev as [uuid|uuid prompt|cp|id|text|blocks|ms|b|e].
  - change (step s (Submit uuid)) with (handleSubmit uuid s).
    destruct (submitAccepted s) eqn:Hacc.
    + rewrite (handleSubmit_accepted uuid s Hacc). simpl.
      split; [done|]. eexists. split; [by rewrite <- app_assoc|].
      rewrite Hctx. repeat constructor.
    + rewrite (handleSubmit_rejected uuid s Hacc). simpl.
      split; [done|]. eexists. split; [done|]. repeat constructor.
  - simpl. unfold handleSuggestedPrompt.
    destruct (stream_isLoading s); simpl.
    + split; [done|]. exists []. by rewrite app_nil_r.
    + split; [done|]. eexists. split; [done|]. repeat constructor.
  - simpl. split; [done|]. eexists. split; [done|]. repeat constructor.
  - simpl. split; [done|]. exists []. by rewrite app_nil_r.
  - simpl. split; [done|]. exists []. by rewrite app_nil_r.
  - simpl. split; [done|]. exists []. by rewrite app_nil_r.
  - rewrite step_messages, messagesEffect_context, messagesEffect_trace.
    split; [done|]. exists []. by rewrite app_nil_r.
  - simpl. split; [done|]. exists []. by rewrite app_nil_r.
  - rewrite step_error.
    destruct (errorEffect_untouched (setError e s)) as (_ & _ & _ & ->).
    split; [done|].
    destruct (errorEffect_trace (setError e s)) as (new & Ht & Hnew).
    by exists new.
Qed.

Lemma run_empty_context evs : forall s,
  artifactContext s = ∅ ->
  exists new, trace (run s evs) = trace s ++ new
              /\ Forall (fun e => sentContext e = None) new.
Proof.
  induction evs as [|ev evs IH]; intros s Hctx.
  - exists []. by rewrite run_nil, app_nil_r.
  - rewrite run_cons.
    destruct (step_empty_context s ev Hctx) as (Hctx' & new & Ht & Hnew).
    destruct (IH _ Hctx') as (new' & Ht' & Hnew').
    exists (new ++ new'). split.
    + by rewrite Ht', Ht, app_assoc.
    + by apply Forall_app.
Qed.

(** C6: [setThreadId], whatever the id, closes the artifact panel
    and empties the artifact context; whatever the component does
    afterwards, no later call of [stream.submit] carries a context. *)
Theorem setThreadId_clears_artifact id s :
  let s' := setThreadId id s in
  artifactOpen s' = false
  /\ artifactContext s' = ∅
  /\ threadId s' = id
  /\ trace s' = trace s
  /\ forall evs,
       Forall (fun e => sentContext e = None)
         (drop (length (trace s)) (trace (run s' evs))).
Proof.
  simpl. repeat split. intros evs.
  destruct (run_empty_context evs (setThreadId id s) eq_refl)
    as (new & -> & Hnew).
  simpl. by rewrite drop_app_length.
Qed.

End ThreadFacts.

(** ** The rendered projection *)

Section Projection.

Variable DO_NOT_RENDER_ID_PREFIX : jsstring.

Local Abbreviation renderable := (renderable DO_NOT_RENDER_ID_PREFIX).
Local Abbreviation visibleMessages :=
  (visibleMessages DO_NOT_RENDER_ID_PREFIX).
Local Abbreviation reserved := (reserved DO_NOT_RENDER_ID_PREFIX).

Lemma startsWith_spec p : forall s,
  startsWith s p = true <-> exists rest, s = p ++ rest.
Proof.
  induction p as [|a p IH]; intros s.
  - destruct s; simpl; (split; [intros _; by eexists|done]).
  - destruct s as [|b s]; simpl.
    + split; [done|]. intros [rest Hrest]. discriminate.
    + rewrite andb_true_iff, N.eqb_eq, IH. split.
      * intros [-> [rest ->]]. by exists rest.
      * intros [rest Hrest]. injection Hrest as -> ->. eauto.
Qed.

Lemma renderable_false m : renderable m = false <-> reserved m.
Proof.
  unfold renderable, reserved.
  rewrite negb_false_iff. destruct (msg_id m) as [i|].
  - rewrite startsWith_spec. split.
    + intros [rest ->]. by exists rest.
    + intros [rest Hrest]. injection Hrest as ->. by exists rest.
  - split; [done|]. intros [rest Hrest]. discriminate.
Qed.

Lemma renderable_true m : renderable m = true <-> ~ reserved m.
Proof.
  rewrite <- renderable_false. by destruct (renderable m).
Qed.

Lemma visibleMessages_sublist l : sublist (visibleMessages l) l.
Proof.
  induction l as [|m l IH]; simpl; [constructor|].
  destruct (renderable m); by constructor.
Qed.

(** C9: the rendered projection leaves out exactly the messages
    whose id starts with [DO_NOT_RENDER_ID_PREFIX]; every other
    message, a message without an id among them, is kept, in the
    order of the transcript. *)
Theorem visibleMessages_excludes_reserved (l : list Message) :
  (forall m, In m (visibleMessages l) <-> In m l /\ ~ reserved m)
  /\ (forall m, In m l -> msg_id m = None -> In m (visibleMessages l))
  /\ sublist (visibleMessages l) l
  /\ (forall m, reserved m ->
        visibleMessages (m :: l) = visibleMessages l)
  /\ (forall m, ~ reserved m ->
        visibleMessages (m :: l) = m :: visibleMessages l)
  /\ (forall l1 l2, l = l1 ++ l2 ->
        visibleMessages l = visibleMessages l1 ++ visibleMessages l2).
Proof.
  split; [|split; [|split; [|split; [|split]]]].
  - intros m. unfold visibleMessages.
    by rewrite filter_In, renderable_true.
  - intros m Hin Hid. apply filter_In. split; [done|].
    apply renderable_true. intros [rest Hrest]. congruence.
  - apply visibleMessages_sublist.
  - intros m Hm. apply renderable_false in Hm. simpl. by rewrite Hm.
  - intros m Hm. apply renderable_true in Hm. simpl. by rewrite Hm.
  - intros l1 l2 ->. apply List.filter_app.
Qed.

End Projection.

(** ** The normalizer on the submission path *)

Section EnsureFacts.

Variable DO_NOT_RENDER_ID_PREFIX : jsstring.

Local Abbreviation synthesize := (synthesize DO_NOT_RENDER_ID_PREFIX).
Local Abbreviation missingResponses :=
  (missingResponses DO_NOT_RENDER_ID_PREFIX).
Local Abbreviation ensure :=
  (ensureToolCallsHaveResponses DO_NOT_RENDER_ID_PREFIX).
Local Abbreviation visibleMessages :=
  (visibleMessages DO_NOT_RENDER_ID_PREFIX).
Local Abbreviation reserved := (reserved DO_NOT_RENDER_ID_PREFIX).














End EnsureFacts.

(** ** The theorems at sample inputs *)

Lemma handleSubmit_empty_is_noop_witness :
  length (trim (input blankThread)) = 0%nat
  /\ length (contentBlocks blankThread) = 0%nat
  /\ submissions
       (trace (handleSubmit (normalize samplePrefix sampleUuid) (js "h1")
                 blankThread))
     = submissions (trace blankThread).
Proof.
  split; [reflexivity|]. split; [reflexivity|].
  destruct (handleSubmit_empty_is_noop (normalize samplePrefix sampleUuid)
              (js "h1") blankThread eq_refl eq_refl) as (_ & H & _).
  exact H.
Defined.

Lemma error_notified_once_per_text_witness :
  js "boom" <> []
  /\ notifications
       (trace (run (normalize samplePrefix sampleUuid) initialThread
                 [Errored (ErrObject (JStr (js "boom")));
                  Errored (ErrObject (JStr (js "boom")))]))
     = [JStr (js "boom")].
Proof.
  assert (Hne : js "boom" <> []) by discriminate.
  split; [exact Hne|].
  destruct (error_notified_once_per_text (normalize samplePrefix sampleUuid)
              (js "boom") initialThread Hne)
    as (H & _).
  apply H. discriminate.
Defined.

Lemma context_attached_when_nonempty_witness :
  submitAccepted contextThread = true
  /\ exists payload options,
       trace (handleSubmit (normalize samplePrefix sampleUuid) (js "h1")
                contextThread)
       = trace contextThread
         ++ [PreventDefault; StreamSubmit (Some payload) options]
       /\ p_context payload = Some (artifactContext contextThread).
Proof.
  split; [reflexivity|].
  destruct (context_attached_when_nonempty
              (normalize samplePrefix sampleUuid) (js "h1") contextThread
              eq_refl)
    as (payload & options & optimistic & Ht & _ & Hsome & _).
  exists payload, options. split; [exact Ht|].
  apply Hsome. exists (js "selection").
  unfold contextThread. simpl. rewrite lookup_singleton_eq. by eexists.
Defined.

Lemma errorEffect_falsy_message_witness :
  error_truthy (stream_error silentErrorThread) = true
  /\ errorEffect silentErrorThread = silentErrorThread.
Proof.
  split; [reflexivity|].
  apply (errorEffect_falsy_message silentErrorThread eq_refl).
  intros message Hmessage. injection Hmessage as <-. reflexivity.
Defined.

(** ** Inputs on which the code departs from the specification *)

(** After a submission the transcript grows from one entry to three and
    ends with a tool message: the flag stays false. *)
Lemma firstTokenReceived_tool_counterexample :
  let ensure := normalize samplePrefix sampleUuid in
  let answered :=
    step ensure busyThread (Messages [humanHi; aiSearch; toolResult]) in
  length (submissions (trace busyThread)) = 1%nat
  /\ firstTokenReceived busyThread = false
  /\ Z.of_nat (length (stream_messages answered))
     <> prevMessageLength busyThread
  /\ msg_type <$> last (stream_messages answered) = Some tool
  /\ firstTokenReceived answered = false.
Proof. vm_compute. repeat split. discriminate. Qed.

(** Two errors in a row with the same, empty, message text: no
    notification at all. *)
Lemma empty_message_errors_counterexample :
  let ensure := normalize samplePrefix sampleUuid in
  let err := ErrObject (JStr []) in
  error_truthy err = true
  /\ notifications
       (trace (run ensure initialThread
                 [Errored err; Errored err]))
     = [].
Proof. vm_compute. done. Qed.


(** ** Scenarios *)

(** A follow-up is submitted while the history has an open invocation:
    the payload carries the synthesized response and the new message;
    the optimistic transcript holds the history once, the response and
    the new message, and the response is not rendered. *)
Example follow_up_scenario :
  let ensure := ensureToolCallsHaveResponses samplePrefix sampleUuid in
  let history := [humanHi; aiSearch] in
  let s := setInput (js "more") (setMessages history initialThread) in
  let response :=
    toolResponse samplePrefix sampleUuid 0
      (mkToolCall (js "call-1") (js "search")) in
  let followUp :=
    mkMessage (Some (js "h2")) human (ContentBlocks [TextBlock (js "more")])
      [] None in
  match submissions (trace (handleSubmit ensure (js "h2") s)) with
  | [(Some payload, options)] =>
      p_messages payload = [response; followUp]
      /\ match o_optimisticValues options with
         | Some optimistic =>
             let next := optimistic (mkValues (Some history) None ∅) in
             v_messages next = Some (history ++ [response; followUp])
             /\ visibleMessages samplePrefix (default [] (v_messages next))
                = history ++ [followUp]
         | None => False
         end
  | _ => False
  end.
Proof. vm_compute. done. Qed.

Example trim_blank : trim (js "  ") = [].
Proof. reflexivity. Qed.

Example trim_inner :
  trim ([0xA0; 0x20]%N ++ js "a b" ++ [0x0A; 0xFEFF]%N) = js "a b".
Proof. reflexivity. Qed.

(** An ai message with an invocation and no response: the normalizer
    inserts one, with a reserved id, and a second pass changes
    nothing. *)
Example normalize_inserts_response :
  normalize samplePrefix sampleUuid [humanHi; aiSearch]
  = [humanHi; aiSearch;
     mkMessage (Some (samplePrefix ++ sampleUuid 0)) tool (ContentString [])
       [] (Some (js "call-1"))].
Proof. reflexivity. Qed.

Example normalize_keeps_response :
  normalize samplePrefix sampleUuid [humanHi; aiSearch; toolResult]
  = [humanHi; aiSearch; toolResult].
Proof. reflexivity. Qed.

Example synthetic_response_hidden :
  visibleMessages samplePrefix
    (normalize samplePrefix sampleUuid [humanHi; aiSearch])
  = [humanHi; aiSearch].
Proof. vm_compute. reflexivity. Qed.

(** Three shapes of an error without a usable message: an object with
    no [message], an object with an empty one, and a string that is
    thrown as it is.  None of them is notified. *)
Example errors_without_message :
  Forall (fun e =>
            error_truthy e = true
            /\ errorEffect (setError e initialThread)
               = setError e initialThread)
    [ErrObject JUndefined; ErrObject (JStr []);
     ErrPrimitive (JStr (js "boom"))].
Proof. repeat constructor. Qed.

(** "hi" is submitted, the stream echoes it and then delivers an ai
    message: the flag is set by the second delivery. *)
Example first_token_scenario :
  let ensure := normalize samplePrefix sampleUuid in
  let reply := mkMessage (Some (js "a2")) ai (ContentString (js "Hi")) [] None in
  firstTokenReceived
    (run ensure typedThread
       [Submit (js "h1"); Loading true; Messages [humanHi]]) = false
  /\ firstTokenReceived
       (run ensure typedThread
          [Submit (js "h1"); Loading true; Messages [humanHi];
           Messages [humanHi; reply]]) = true.
Proof. vm_compute. done. Qed.

(** A reply is regenerated: the new transcript is as long as the old
    one, and the decrement of [prevMessageLength] lets the effect set
    the flag again. *)
Example regenerate_scenario :
  let ensure := normalize samplePrefix sampleUuid in
  let reply := mkMessage (Some (js "a2")) ai (ContentString (js "Hi")) [] None in
  let reply' := mkMessage (Some (js "a3")) ai (ContentString (js "Hey")) [] None in
  let replied :=
    run ensure busyThread [Messages [humanHi; reply]; Loading false] in
  firstTokenReceived replied = true
  /\ firstTokenReceived
       (run ensure replied [Regenerate (Some sampleCheckpoint)]) = false
  /\ firstTokenReceived
       (run ensure replied
          [Regenerate (Some sampleCheckpoint); Loading true;
           Messages [humanHi; reply']]) = true.
Proof. vm_compute. done. Qed.

Example submit_with_context :
  map sentContext
    (trace (handleSubmit (normalize samplePrefix sampleUuid) (js "h1")
              contextThread))
  = [None; Some {[ js "selection" := JStr (js "Apple") ]}].
Proof.
  rewrite handleSubmit_accepted by reflexivity. cbv zeta.
  rewrite (objectKeys_some _ (js "selection")); [reflexivity|].
  unfold contextThread. simpl. rewrite lookup_singleton_eq. by eexists.
Qed.

(** * The knowledge-graph panel: properties *)

Lemma js_inj a b : js a = js b -> a = b.
Proof.
  unfold js. intros H.
  rewrite <- (string_of_list_ascii_of_string a),
          <- (string_of_list_ascii_of_string b).
  f_equal. revert H.
  generalize (list_ascii_of_string a) (list_ascii_of_string b).
  induction l as [|x l IH]; intros [|y k]; simpl; try done.
  intros [= Hxy Hlk]. f_equal; [|by apply IH].
  by rewrite <- (ascii_N_embedding x), <- (ascii_N_embedding y), Hxy.
Qed.

#[global] Instance numberToString_inj : Inj (=) (=) numberToString.
Proof.
  intros a b H. apply js_inj in H.
  apply DecimalZ.to_int_inj.
  assert (Some (Z.to_int a) = Some (Z.to_int b)) as [= ->]; [|done].
  by rewrite <- !NilEmpty.isi, H.
Qed.

Lemma mapSet_absent k v (l : NodeMap) :
  k ∉ l.*1 -> mapSet k v l = l ++ [(k, v)].
Proof.
  induction l as [|[k' v'] l IH]; simpl; [done|].
  rewrite not_elem_of_cons. intros [Hne Hl].
  rewrite bool_decide_eq_false_2 by done. by rewrite IH.
Qed.

Lemma addSeed_nodeMap record acc :
  nodeMap (addSeed record acc) = nodeMap acc ++ seedEntry record (nodeMap acc)
  /\ relSet (addSeed record acc) = relSet acc
  /\ rels (addSeed record acc) = rels acc.
Proof.
  unfold addSeed, seedEntry, mapHas. destruct (rec_seed record) as [seed|].
  - case_bool_decide; simpl; [by rewrite app_nil_r|].
    by rewrite mapSet_absent.
  - by rewrite app_nil_r.
Qed.

Lemma addEpisodic_nodeMap record acc :
  nodeMap (addEpisodic record acc)
  = nodeMap acc ++ episodicEntry record (nodeMap acc)
  /\ relSet (addEpisodic record acc) = relSet acc
  /\ rels (addEpisodic record acc) = rels acc.
Proof.
  unfold addEpisodic, episodicEntry, mapHas.
  destruct (rec_m record) as [m|].
  - case_bool_decide; simpl; [by rewrite app_nil_r|].
    by rewrite mapSet_absent.
  - by rewrite app_nil_r.
Qed.

Lemma addRelationships_nodeMap record acc :
  nodeMap (addRelationships record acc) = nodeMap acc.
Proof.
  unfold addRelationships. destruct (rec_r record) as [r|]; [|done].
  revert acc. induction r as [|rel r IH]; intros acc; simpl; [done|].
  rewrite IH. unfold addRelationship. by destruct (negb _).
Qed.

Lemma addRecord_nodeMap acc record :
  nodeMap (addRecord acc record)
  = (nodeMap acc ++ seedEntry record (nodeMap acc))
    ++ episodicEntry record (nodeMap acc ++ seedEntry record (nodeMap acc)).
Proof.
  unfold addRecord. rewrite addRelationships_nodeMap.
  destruct (addEpisodic_nodeMap record (addSeed record acc)) as (-> & _).
  by destruct (addSeed_nodeMap record acc) as (-> & _).
Qed.

Lemma collectGraph_snoc records record :
  collectGraph (records ++ [record])
  = addRecord (collectGraph records) record.
Proof. unfold collectGraph. by rewrite fold_left_app. Qed.

(** ** The accumulator stays consistent *)

Lemma addRelationship_ok acc rel :
  graphAccOk acc -> graphAccOk (addRelationship acc rel).
Proof.
  intros (Hkeys & Hids & Hrels & Hset). unfold addRelationship.
  case_bool_decide as Hin; simpl; [done|].
  repeat split; simpl; try done.
  - rewrite fmap_app. apply NoDup_app. repeat split; [done| |].
    + intros id Hid [->|[]%elem_of_nil]%elem_of_cons.
      by apply Hin, Hset.
    + apply NoDup_singleton.
  - rewrite fmap_app, elem_of_union, elem_of_singleton, elem_of_app.
    rewrite Hset. simpl. rewrite list_elem_of_singleton. tauto.
  - rewrite fmap_app, elem_of_union, elem_of_singleton, elem_of_app.
    rewrite Hset. simpl. rewrite list_elem_of_singleton. tauto.
Qed.

Lemma addRelationships_ok record acc :
  graphAccOk acc -> graphAccOk (addRelationships record acc).
Proof.
  unfold addRelationships. destruct (rec_r record) as [r|]; [|done].
  revert acc. induction r as [|rel r IH]; intros acc Hacc; simpl; [done|].
  by apply IH, addRelationship_ok.
Qed.

Lemma addSeed_ok record acc : graphAccOk acc -> graphAccOk (addSeed record acc).
Proof.
  intros (Hkeys & Hids & Hrels & Hset).
  destruct (addSeed_nodeMap record acc) as (Hn & Hs & Hr).
  unfold graphAccOk. rewrite Hn, Hs, Hr. repeat split; try done;
    try by apply Hset.
  - unfold seedEntry. destruct (rec_seed record) as [seed|];
      [|by rewrite app_nil_r].
    case_bool_decide as Hin; [by rewrite app_nil_r|].
    rewrite fmap_app. apply NoDup_app. repeat split; [done| |].
    + intros id Hid [->|[]%elem_of_nil]%elem_of_cons. done.
    + apply NoDup_singleton.
  - apply Forall_app. split; [done|]. unfold seedEntry.
    destruct (rec_seed record) as [seed|]; [|done].
    case_bool_decide; by repeat constructor.
Qed.

Lemma addEpisodic_ok record acc :
  graphAccOk acc -> graphAccOk (addEpisodic record acc).
Proof.
  intros (Hkeys & Hids & Hrels & Hset).
  destruct (addEpisodic_nodeMap record acc) as (Hn & Hs & Hr).
  unfold graphAccOk. rewrite Hn, Hs, Hr. repeat split; try done;
    try by apply Hset.
  - unfold episodicEntry. destruct (rec_m record) as [m|];
      [|by rewrite app_nil_r].
    case_bool_decide as Hin; [by rewrite app_nil_r|].
    rewrite fmap_app. apply NoDup_app. repeat split; [done| |].
    + intros id Hid [->|[]%elem_of_nil]%elem_of_cons. done.
    + apply NoDup_singleton.
  - apply Forall_app. split; [done|]. unfold episodicEntry.
    destruct (rec_m record) as [m|]; [|done].
    case_bool_decide; by repeat constructor.
Qed.

Lemma collectGraph_ok records : graphAccOk (collectGraph records).
Proof.
  unfold collectGraph.
  assert (H : graphAccOk emptyGraphAcc).
  { repeat split; simpl; try constructor; set_solver. }
  revert H. generalize emptyGraphAcc.
  induction records as [|record records IH]; intros acc Hacc; simpl; [done|].
  apply IH. unfold addRecord.
  by apply addRelationships_ok, addEpisodic_ok, addSeed_ok.
Qed.

(** ** Which nodes are kept *)

Lemma addIdentity_elem i seen j :
  j ∈ addIdentity seen i <-> j ∈ seen \/ j = i.
Proof.
  unfold addIdentity. case_bool_decide.
  - split; [by left|]. by intros [?| ->].
  - rewrite elem_of_app, list_elem_of_singleton. done.
Qed.

Lemma addIdentity_NoDup i seen : NoDup seen -> NoDup (addIdentity seen i).
Proof.
  unfold addIdentity. intros Hseen. case_bool_decide; [done|].
  apply NoDup_app. repeat split; [done| |apply NoDup_singleton].
  by intros j Hj ->%list_elem_of_singleton.
Qed.

Lemma fold_addIdentity_elem l : forall seen j,
  j ∈ fold_left addIdentity l seen <-> j ∈ seen \/ j ∈ l.
Proof.
  induction l as [|i l IH]; intros seen j; simpl.
  - rewrite elem_of_nil. tauto.
  - rewrite IH, addIdentity_elem, elem_of_cons. tauto.
Qed.

Lemma fold_addIdentity_NoDup l : forall seen,
  NoDup seen -> NoDup (fold_left addIdentity l seen).
Proof.
  induction l as [|i l IH]; intros seen Hseen; simpl; [done|].
  by apply IH, addIdentity_NoDup.
Qed.

Lemma distinctIdentities_elem l j : j ∈ distinctIdentities l <-> j ∈ l.
Proof.
  unfold distinctIdentities. rewrite fold_addIdentity_elem, elem_of_nil.
  tauto.
Qed.

Lemma distinctIdentities_NoDup l : NoDup (distinctIdentities l).
Proof. apply fold_addIdentity_NoDup. constructor. Qed.

Lemma keys_addIdentity (l entry : NodeMap) seen i node :
  l.*1 = numberToString <$> seen ->
  entry = (if bool_decide (numberToString i ∈ l.*1) then []
           else [(numberToString i, node)]) ->
  (l ++ entry).*1 = numberToString <$> addIdentity seen i.
Proof.
  intros Hl ->. unfold addIdentity. rewrite fmap_app, Hl.
  rewrite (bool_decide_ext _ (i ∈ seen))
    by apply (list_elem_of_fmap_inj numberToString).
  case_bool_decide; simpl; [by rewrite app_nil_r|].
  by rewrite fmap_app.
Qed.

Lemma addRecord_keys acc record seen :
  (nodeMap acc).*1 = numberToString <$> seen ->
  (nodeMap (addRecord acc record)).*1
  = numberToString <$> fold_left addIdentity (recordIdentities record) seen.
Proof.
  intros Hacc. rewrite addRecord_nodeMap.
  unfold recordIdentities. rewrite fold_left_app.
  assert (Hseed :
    (nodeMap acc ++ seedEntry record (nodeMap acc)).*1
    = numberToString <$>
        fold_left addIdentity
          (option_list (node_identity <$> rec_seed record)) seen).
  { unfold seedEntry. destruct (rec_seed record) as [seed|]; simpl.
    - by eapply keys_addIdentity.
    - by rewrite app_nil_r. }
  revert Hseed.
  generalize (nodeMap acc ++ seedEntry record (nodeMap acc)).
  generalize (fold_left addIdentity
                (option_list (node_identity <$> rec_seed record)) seen).
  intros seen' l Hl. unfold episodicEntry.
  destruct (rec_m record) as [m|]; simpl.
  - by eapply keys_addIdentity.
  - by rewrite app_nil_r.
Qed.

Lemma fold_addRecord_keys records : forall acc seen,
  (nodeMap acc).*1 = numberToString <$> seen ->
  (nodeMap (fold_left addRecord records acc)).*1
  = numberToString <$> fold_left addIdentity (graphIdentities records) seen.
Proof.
  induction records as [|record records IH]; intros acc seen Hacc;
    simpl; [done|].
  unfold graphIdentities. simpl. rewrite fold_left_app.
  by apply IH, addRecord_keys.
Qed.

Lemma collectGraph_keys records :
  (nodeMap (collectGraph records)).*1
  = numberToString <$> distinctIdentities (graphIdentities records).
Proof. by apply fold_addRecord_keys. Qed.

Lemma values_ids (l : NodeMap) :
  Forall (fun kv => n_id kv.2 = kv.1) l -> n_id <$> mapValues l = l.*1.
Proof.
  unfold mapValues. induction l as [|[k node] l IH]; [done|].
  intros [Hk Hl]%Forall_cons. simpl in *. f_equal; [done|by apply IH].
Qed.

Lemma collectGraph_ids records :
  n_id <$> mapValues (nodeMap (collectGraph records))
  = numberToString <$> distinctIdentities (graphIdentities records).
Proof.
  rewrite <- collectGraph_keys. apply values_ids.
  by destruct (collectGraph_ok records) as (_ & Hids & _).
Qed.

Lemma loaded_nodes records s :
  nodes (loadGraphData (FetchResponse true (inr records)) s)
  = take 100 (mapValues (nodeMap (collectGraph records))).
Proof. done. Qed.

(** X1: after a successful load of records whose numbers are safe
    integers, the nodes drawn are those of the first hundred distinct
    identities that the records mention, in the order of their first
    mention (the seed of a record before its m): at most a hundred
    nodes, no id twice. *)
Theorem loaded_nodes_first_hundred records s :
  safeRecords records = true ->
  let s' := loadGraphData (FetchResponse true (inr records)) s in
  n_id <$> nodes s'
  = numberToString <$> take 100 (distinctIdentities (graphIdentities records))
  /\ (length (nodes s') <= 100)%nat
  /\ NoDup (n_id <$> nodes s')
  /\ forall node, node ∈ nodes s' ->
       exists i, i ∈ graphIdentities records
                 /\ n_id node = numberToString i.
Proof.
  intros Hsafe s'. subst s'. rewrite loaded_nodes.
  assert (Hids :
    n_id <$> take 100 (mapValues (nodeMap (collectGraph records)))
    = numberToString <$>
        take 100 (distinctIdentities (graphIdentities records))).
  { by rewrite !fmap_take, collectGraph_ids. }
  split; [done|]. split; [rewrite length_take; lia|]. split.
  - rewrite Hids. apply (NoDup_fmap_2 numberToString).
    eapply sublist_NoDup; [|apply sublist_take].
    apply distinctIdentities_NoDup.
  - intros node Hnode.
    apply (list_elem_of_fmap_2 n_id) in Hnode. rewrite Hids in Hnode.
    apply list_elem_of_fmap in Hnode as (i & Hi & Hin).
    exists i. split; [|done].
    by apply distinctIdentities_elem, (subseteq_take 100).
Qed.

(** X2: when the records, whose numbers are safe integers, mention
    at most a hundred distinct identities, the cap drops nothing: every
    seed and every m of every record has its node. *)
Theorem loaded_nodes_complete records s record n :
  safeRecords records = true ->
  (length (distinctIdentities (graphIdentities records)) <= 100)%nat ->
  record ∈ records ->
  rec_seed record = Some n \/ rec_m record = Some n ->
  numberToString (node_identity n)
  ∈ n_id <$> nodes (loadGraphData (FetchResponse true (inr records)) s).
Proof.
  intros Hsafe Hcap Hrecord Hn.
  rewrite loaded_nodes, fmap_take, collectGraph_ids.
  rewrite take_ge by (by rewrite length_fmap).
  apply list_elem_of_fmap_2, distinctIdentities_elem.
  unfold graphIdentities. apply list_elem_of_bind. exists record.
  split; [|done]. unfold recordIdentities. apply elem_of_app.
  destruct Hn as [-> | ->]; [left|right]; simpl; apply list_elem_of_singleton;
    done.
Qed.

(** ** Which relationships are kept *)

Lemma filter_sublist {A} (f : A -> bool) (l : list A) :
  sublist (List.filter f l) l.
Proof.
  induction l as [|x l IH]; simpl; [constructor|].
  destruct (f x); by constructor.
Qed.

Lemma addRelationship_rels acc rel e :
  e ∈ rels (addRelationship acc rel) ->
  e ∈ rels acc \/ e = relationshipOf rel.
Proof.
  unfold addRelationship. destruct (negb _); simpl; [|by left].
  rewrite elem_of_app, list_elem_of_singleton. done.
Qed.

Lemma addRelationships_rels record acc e :
  e ∈ rels (addRelationships record acc) ->
  e ∈ rels acc \/ e ∈ relationshipOf <$> default [] (rec_r record).
Proof.
  unfold addRelationships. destruct (rec_r record) as [r|]; simpl;
    [|by left].
  revert acc. induction r as [|rel r IH]; intros acc; simpl; [by left|].
  intros [He|He]%IH.
  - apply addRelationship_rels in He as [He| ->]; [by left|].
    right. apply elem_of_cons. by left.
  - right. apply elem_of_cons. by right.
Qed.

Lemma collectGraph_rels records e :
  e ∈ rels (collectGraph records) ->
  e ∈ relationshipOf <$> recordRelationships records.
Proof.
  induction records as [|record records IH] using rev_ind.
  - by intros ?%elem_of_nil.
  - rewrite collectGraph_snoc. unfold addRecord.
    intros [He|He]%addRelationships_rels.
    + destruct (addEpisodic_nodeMap record
                  (addSeed record (collectGraph records))) as (_ & _ & Hr).
      destruct (addSeed_nodeMap record (collectGraph records))
        as (_ & _ & Hr').
      rewrite Hr, Hr' in He.
      unfold recordRelationships. rewrite bind_app, fmap_app.
      apply elem_of_app. left. by apply IH.
    + unfold recordRelationships. rewrite bind_app, fmap_app.
      apply elem_of_app. right. simpl. by rewrite app_nil_r.
Qed.

(** X3: after a successful load of records whose numbers are safe
    integers, every relationship drawn joins two nodes that are drawn,
    no relationship id occurs twice, and each relationship is that of a
    relationship listed in the records. *)
Theorem loaded_relationships_closed records s :
  safeRecords records = true ->
  let s' := loadGraphData (FetchResponse true (inr records)) s in
  (forall e, e ∈ relationships s' ->
     e_from e ∈ n_id <$> nodes s' /\ e_to e ∈ n_id <$> nodes s')
  /\ NoDup (e_id <$> relationships s')
  /\ (forall e, e ∈ relationships s' ->
        exists rel, rel ∈ recordRelationships records
                    /\ e = relationshipOf rel).
Proof.
  intros Hsafe. simpl. repeat split.
  - apply list_elem_of_In, filter_In in H as [_ H].
    apply andb_true_iff in H as [H _]. apply bool_decide_eq_true in H.
    by apply elem_of_list_to_set in H.
  - apply list_elem_of_In, filter_In in H as [_ H].
    apply andb_true_iff in H as [_ H]. apply bool_decide_eq_true in H.
    by apply elem_of_list_to_set in H.
  - destruct (collectGraph_ok records) as (_ & _ & Hrels & _).
    eapply sublist_NoDup; [exact Hrels|].
    apply fmap_sublist, filter_sublist.
  - intros e He. apply list_elem_of_In, filter_In in He as [He _].
    apply list_elem_of_In, collectGraph_rels, list_elem_of_fmap in He
      as (rel & -> & Hrel).
    by exists rel.
Qed.

(** ** How a node is drawn *)

Lemma collectGraph_key_elem records k :
  k ∈ (nodeMap (collectGraph records)).*1
  <-> k ∈ numberToString <$> graphIdentities records.
Proof.
  rewrite collectGraph_keys, !list_elem_of_fmap.
  by setoid_rewrite distinctIdentities_elem.
Qed.

Lemma collectGraph_firstMention records : forall kv,
  kv ∈ nodeMap (collectGraph records) -> firstMention records kv.2.
Proof.
  induction records as [|record records IH] using rev_ind; intros [k node].
  - by intros ?%elem_of_nil.
  - rewrite collectGraph_snoc, addRecord_nodeMap.
    pose proof (collectGraph_key_elem records) as Hkeys.
    revert Hkeys IH. generalize (nodeMap (collectGraph records)).
    intros old Hkeys IH. rewrite !elem_of_app. intros [[Hold|Hseed]|Hm].
    + destruct (IH _ Hold) as (before & first & after & -> & Hnot & Hcase).
      exists before, first, (after ++ [record]).
      split; [by rewrite <- app_assoc|]. done.
    + unfold seedEntry in Hseed. destruct (rec_seed record) as [seed|] eqn:E;
        [|by apply elem_of_nil in Hseed].
      case_bool_decide as Hin; [by apply elem_of_nil in Hseed|].
      apply list_elem_of_singleton in Hseed as [= -> ->].
      exists records, record, []. split; [done|]. split.
      * simpl. by rewrite <- Hkeys.
      * left. by exists seed.
    + unfold episodicEntry in Hm. destruct (rec_m record) as [m|] eqn:E;
        [|by apply elem_of_nil in Hm].
      case_bool_decide as Hin; [by apply elem_of_nil in Hm|].
      apply list_elem_of_singleton in Hm as [= -> ->].
      rewrite fmap_app, not_elem_of_app in Hin. destruct Hin as [Hold Hnew].
      exists records, record, []. split; [done|]. split.
      * simpl. by rewrite <- Hkeys.
      * right. exists m. split; [done|]. split; [done|].
        intros seed Hseed Heq. unfold seedEntry in Hnew.
        rewrite Hseed, Heq in Hnew.
        case_bool_decide as Hin; [done|].
        apply Hnew. simpl. apply list_elem_of_singleton. done.
Qed.

Lemma loaded_node_in_map records s node :
  node ∈ nodes (loadGraphData (FetchResponse true (inr records)) s) ->
  exists k, (k, node) ∈ nodeMap (collectGraph records).
Proof.
  rewrite loaded_nodes. intros Hnode%(subseteq_take 100).
  unfold mapValues in Hnode.
  apply list_elem_of_fmap in Hnode as ([k node'] & -> & Hin). by exists k.
Qed.

(** X4: for records whose numbers are safe integers, a node that is
    drawn is styled by the first mention of its identity: the first record that mentions it makes it a seed node
    (size 25, the name with its underscores spaced out, Entity by
    default) when it is the seed of that record, and an episodic node
    (size 20, thirty code units of the name, Episodic by default) when
    it is its m; later mentions change nothing. *)
Theorem node_styled_by_first_mention records s node :
  safeRecords records = true ->
  node ∈ nodes (loadGraphData (FetchResponse true (inr records)) s) ->
  firstMention records node.
Proof.
  intros Hsafe (k & Hk)%loaded_node_in_map.
  apply (collectGraph_firstMention records (k, node) Hk).
Qed.

(** ** Captions and the selection *)

Lemma orElse_nonempty v fallback : fallback <> [] -> orElse v fallback <> [].
Proof. intros H. by destruct v as [[|c rest]|]. Qed.

Lemma labelled_seedNode seed : labelled (seedNode seed).
Proof. eexists. split; [done|]. by apply orElse_nonempty. Qed.

Lemma labelled_episodicNode m : labelled (episodicNode m).
Proof. eexists. split; [done|]. by apply orElse_nonempty. Qed.

Lemma firstMention_labelled records node :
  firstMention records node -> labelled node.
Proof.
  intros (_ & _ & _ & _ & _ & [(seed & _ & ->)|(m & _ & -> & _)]).
  - apply labelled_seedNode.
  - apply labelled_episodicNode.
Qed.

Lemma node_in_map_labelled records s node :
  node ∈ nodes (loadGraphData (FetchResponse true (inr records)) s) ->
  labelled node.
Proof.
  intros (k & Hk)%loaded_node_in_map.
  apply (firstMention_labelled records).
  apply (collectGraph_firstMention records (k, node) Hk).
Qed.

(** X5: after a successful load every node drawn has exactly one
    caption, which is not empty and is the label that the selection
    panel shows for it; the first node is selected when there is one,
    and the selection is left alone when there is none. *)
Theorem loaded_nodes_labelled records s :
  let s' := loadGraphData (FetchResponse true (inr records)) s in
  Forall (fun node => n_captions node = [selectedLabel node]
                      /\ selectedLabel node <> []) (nodes s')
  /\ (forall first rest, nodes s' = first :: rest ->
        selectedNode s' = Some first)
  /\ (nodes s' = [] -> selectedNode s' = selectedNode s).
Proof.
  intros s'. split; [|split].
  - apply Forall_forall. intros node Hnode.
    apply node_in_map_labelled in Hnode.
    destruct Hnode as (caption & Hc & Hne). unfold selectedLabel.
    rewrite Hc. simpl. by destruct caption.
  - subst s'. simpl. by intros first rest ->.
  - subst s'. simpl. by intros ->.
Qed.

Lemma digits_no_underscore d :
  Forall (fun c => c <> 0x5F%N) (js (NilEmpty.string_of_uint d)).
Proof.
  induction d; simpl; constructor; try done; by apply IHd.
Qed.

Lemma numberToString_no_underscore n :
  Forall (fun c => c <> 0x5F%N) (numberToString n).
Proof.
  unfold numberToString. destruct (Z.to_int n) as [d|d]; simpl.
  - apply digits_no_underscore.
  - constructor; [done|]. apply digits_no_underscore.
Qed.

Lemma spaceUnderscores_no_underscore name :
  Forall (fun c => c <> 0x5F%N) (spaceUnderscores name).
Proof.
  unfold spaceUnderscores. induction name as [|c name IH]; simpl;
    constructor; [|done].
  destruct (c =? 0x5F)%N eqn:E; [done|]. by apply N.eqb_neq.
Qed.

(** X6: for a node whose identity is a safe integer, the caption of
    a seed node never holds an underscore: it is
    the name with every underscore turned into a space, as long as the
    name, or "Node <identity>" when the name is missing or empty.  The
    caption of an episodic node is the first thirty code units of the
    name, or the same fallback. *)
Theorem caption_shapes (n : RecordNode) :
  safeInteger (node_identity n) = true ->
  (exists caption,
     n_captions (seedNode n) = [caption]
     /\ Forall (fun c => c <> 0x5F%N) caption
     /\ (forall name, node_name n = Some name -> name <> [] ->
           caption = spaceUnderscores name
           /\ length caption = length name)
     /\ (node_name n = None \/ node_name n = Some [] ->
           caption = js "Node " ++ numberToString (node_identity n)))
  /\ (exists caption,
        n_captions (episodicNode n) = [caption]
        /\ (forall name, node_name n = Some name -> name <> [] ->
              caption = take 30 name /\ (length caption <= 30)%nat)
        /\ (node_name n = None \/ node_name n = Some [] ->
              caption = js "Node " ++ numberToString (node_identity n))).
Proof.
  intros Hsafe. split.
  - eexists. split; [done|]. split; [|split].
    + destruct (node_name n) as [[|c name]|]; simpl.
      * constructor; [done|]. repeat (constructor; [done|]).
        apply numberToString_no_underscore.
      * apply (spaceUnderscores_no_underscore (c :: name)).
      * constructor; [done|]. repeat (constructor; [done|]).
        apply numberToString_no_underscore.
    + intros name -> Hne. destruct name as [|c name]; [done|].
      split; [done|].
      change (length (spaceUnderscores (c :: name)) = length (c :: name)).
      unfold spaceUnderscores. by rewrite length_map.
    + by intros [-> | ->].
  - eexists. split; [done|]. split.
    + intros name -> Hne. destruct name as [|c name]; [done|]. simpl.
      split; [done|]. rewrite length_take. lia.
    + by intros [-> | ->].
Qed.

(** ** The outcome of the load *)

(** X7: whatever the outcome of the fetch, the panel leaves the
    loading view.  A response that is not ok shows "Failed to load graph
    data", a thrown value that is no Error shows "Unknown error", an
    Error shows its message, and each failure keeps the nodes, the
    relationships and the selection; but an Error whose message is
    empty shows no error view: the canvas is drawn with what the state
    holds. *)
Theorem load_outcome_view :
  (forall outcome s,
     loading (loadGraphData outcome s) = false
     /\ renderGraph (loadGraphData outcome s) <> LoadingView)
  /\ (forall body s,
        renderGraph (loadGraphData (FetchResponse false body) s)
        = ErrorView (js "Failed to load graph data"))
  /\ (forall s,
        renderGraph (loadGraphData (FetchRejected ThrownOther) s)
        = ErrorView (js "Unknown error")
        /\ renderGraph (loadGraphData (FetchResponse true (inl ThrownOther)) s)
           = ErrorView (js "Unknown error"))
  /\ (forall message s, message <> [] ->
        renderGraph (loadGraphData (FetchRejected (ThrownError message)) s)
        = ErrorView message
        /\ renderGraph
             (loadGraphData
                (FetchResponse true (inl (ThrownError message))) s)
           = ErrorView message)
  /\ (forall s,
        renderGraph (loadGraphData (FetchRejected (ThrownError [])) s)
        = GraphCanvas (nodes s) (relationships s)
            ((fun node => (n_id node, selectedLabel node))
               <$> selectedNode s)
            (length (nodes s)) (length (relationships s)))
  /\ (forall err s,
        let s' := loadFailed err s in
        nodes s' = nodes s /\ relationships s' = relationships s
        /\ selectedNode s' = selectedNode s).
Proof.
  split; [|split; [|split; [|split; [|split]]]].
  - intros outcome s. split.
    + by destruct outcome as [err|[|] [err|records]].
    + unfold renderGraph.
      destruct outcome as [[message|]|[|] [[message|]|records]]; simpl;
        try done; try (by destruct message);
        by destruct (error s) as [[|c rest]|].
  - by intros [err|records] s.
  - done.
  - intros message s Hne. by destruct message.
  - done.
  - done.
Qed.

(** * The thread: further properties *)

Section ThreadViewFacts.

Variable DO_NOT_RENDER_ID_PREFIX : jsstring.
Variable ensureToolCallsHaveResponses : list Message -> list Message.

Local Abbreviation handleSubmit := (handleSubmit ensureToolCallsHaveResponses).
Local Abbreviation handleKeyDown :=
  (handleKeyDown ensureToolCallsHaveResponses).
Local Abbreviation step := (step ensureToolCallsHaveResponses).
Local Abbreviation run := (run ensureToolCallsHaveResponses).
Local Abbreviation threadContent := (threadContent DO_NOT_RENDER_ID_PREFIX).

Lemma handleSubmit_submissions uuid s :
  exists new,
    submissions (trace (handleSubmit uuid s)) = submissions (trace s) ++ new
    /\ length new = (if submitAccepted s then 1 else 0)%nat.
Proof.
  destruct (submitAccepted s) eqn:Hacc.
  - rewrite handleSubmit_accepted by done. cbv zeta. simpl.
    rewrite !submissions_app. simpl. rewrite app_nil_r. by eexists.
  - rewrite handleSubmit_rejected by done. simpl.
    rewrite submissions_app. simpl. exists []. by rewrite !app_nil_r.
Qed.

Lemma submitControl_enabled s :
  submitControl s = SendButton false <-> submitAccepted s = true.
Proof.
  unfold submitControl, submitAccepted.
  destruct (stream_isLoading s); simpl.
  - rewrite orb_true_r. done.
  - rewrite orb_false_r.
    destruct (_ && _); simpl; split; congruence.
Qed.

(** X8: the Send button is shown and enabled exactly when a submit
    of the form calls [stream.submit]; while Cancel is shown, or Send is
    disabled, a submit of the form makes no call. *)
Theorem send_enabled_iff_submit_calls uuid s :
  (submitControl s = SendButton false
   <-> length (submissions (trace (handleSubmit uuid s)))
       = S (length (submissions (trace s))))
  /\ (submitControl s <> SendButton false ->
        submissions (trace (handleSubmit uuid s)) = submissions (trace s)).
Proof.
  destruct (handleSubmit_submissions uuid s) as (new & -> & Hnew).
  rewrite submitControl_enabled, length_app.
  destruct (submitAccepted s); split.
  - split; [lia|done].
  - done.
  - split; [done|lia].
  - intros _. destruct new; [by rewrite app_nil_r|done].
Qed.

(** X9: a submission that goes through sends, after the normalized
    history, one human message with the fresh id; its content is never
    empty: the input as typed (not trimmed) as a text block, when the
    trimmed input is not empty, followed by the pending blocks in their
    order.  The input and the pending blocks are then cleared. *)
Theorem submitted_human_message uuid s :
  submitAccepted s = true ->
  exists context options blocks,
    submissions (trace (handleSubmit uuid s))
    = submissions (trace s)
      ++ [(Some (mkPayload
                   (ensureToolCallsHaveResponses (stream_messages s)
                    ++ [mkMessage (Some uuid) human (ContentBlocks blocks)
                          [] None])
                   context),
           options)]
    /\ blocks <> []
    /\ (trim (input s) <> [] ->
          blocks = TextBlock (input s) :: contentBlocks s)
    /\ (trim (input s) = [] -> blocks = contentBlocks s)
    /\ input (handleSubmit uuid s) = []
    /\ contentBlocks (handleSubmit uuid s) = [].
Proof.
  intros Hacc. rewrite handleSubmit_accepted by done. cbv zeta. simpl.
  eexists _, _, _. rewrite !submissions_app. simpl. rewrite app_nil_r.
  split; [done|].
  unfold submitAccepted in Hacc. apply negb_true_iff, orb_false_iff in Hacc.
  destruct Hacc as [Hacc _]. apply andb_false_iff in Hacc.
  destruct (trim (input s)) as [|c text] eqn:Htrim; simpl.
  - destruct Hacc as [Hacc|Hacc]; [done|].
    destruct (contentBlocks s); done.
  - done.
Qed.

Lemma errorEffect_toasts s :
  exists new, trace (errorEffect s) = trace s ++ new
              /\ Forall (fun e => exists message, e = ToastError message) new.
Proof.
  unfold errorEffect. destruct (negb _).
  - exists []. by rewrite app_nil_r.
  - destruct (error_message _) as [message|].
    + destruct (_ || _).
      * exists []. by rewrite app_nil_r.
      * eexists. split; [done|]. repeat constructor. by eexists.
    + exists []. by rewrite app_nil_r.
Qed.

Lemma step_appends s ev :
  exists new, trace (step s ev) = trace s ++ new
              /\ Forall appendsWhatItSends new.
Proof.
  destruct ev as [uuid|uuid prompt|cp|id|text|blocks|ms|b|e].
  - change (step s (Submit uuid)) with (handleSubmit uuid s).
    destruct (submitAccepted s) eqn:Hacc.
    + rewrite (handleSubmit_accepted _ uuid s Hacc). cbv zeta. simpl.
      eexists. split; [by rewrite <- app_assoc|].
      constructor; [done|]. constructor; [|done]. simpl. by eexists.
    + rewrite (handleSubmit_rejected _ uuid s Hacc). simpl.
      eexists. split; [done|]. by repeat constructor.
  - simpl. unfold handleSuggestedPrompt.
    destruct (stream_isLoading s); simpl.
    + exists []. by rewrite app_nil_r.
    + eexists. split; [done|]. constructor; [|done]. simpl. by eexists.
  - simpl. eexists. split; [done|]. by repeat constructor.
  - exists []. simpl. by rewrite app_nil_r.
  - exists []. simpl. by rewrite app_nil_r.
  - exists []. simpl. by rewrite app_nil_r.
  - rewrite step_messages, messagesEffect_trace.
    exists []. simpl. by rewrite app_nil_r.
  - exists []. simpl. by rewrite app_nil_r.
  - rewrite step_error.
    destruct (errorEffect_toasts (setError e s)) as (new & -> & Hnew).
    exists new. split; [done|].
    eapply Forall_impl; [exact Hnew|]. by intros x [message ->].
Qed.

Lemma run_appends evs : forall s,
  Forall appendsWhatItSends (trace s) ->
  Forall appendsWhatItSends (trace (run s evs)).
Proof.
  induction evs as [|ev evs IH]; intros s Hs; [done|].
  rewrite run_cons. apply IH.
  destruct (step_appends s ev) as (new & -> & Hnew). by apply Forall_app.
Qed.

(** X10: in every call of [stream.submit] that the component makes,
    whatever the user and the stream do, the optimistic update appends
    to the transcript it is given (an empty one when [messages] is
    missing) exactly the messages of the payload and keeps whatever
    else the state holds; a regeneration, which has no payload, has no
    optimistic update. *)
Theorem every_call_appends_what_it_sends evs :
  Forall appendsWhatItSends (trace (run initialThread evs)).
Proof. apply run_appends. constructor. Qed.

Lemma strict_eq_refl v : strict_eq v v = true.
Proof. by apply strict_eq_true. Qed.

(** X11: both effects can be run again without a change: a second
    run of the error effect on the same error shows no second
    notification, and a second run of the effect on [messages] leaves
    the flag and the recorded length alone. *)
Theorem effects_idempotent s :
  errorEffect (errorEffect s) = errorEffect s
  /\ messagesEffect (messagesEffect s) = messagesEffect s.
Proof.
  split.
  - unfold errorEffect at 2 3.
    destruct (negb (error_truthy (stream_error s))) eqn:Herr.
    + unfold errorEffect. simpl. by rewrite Herr.
    + destruct (error_message (stream_error s)) as [message|] eqn:Hmsg.
      * destruct (negb (truthy message) || strict_eq (lastError s) message)
          eqn:Hskip.
        -- unfold errorEffect. by rewrite Herr, Hmsg, Hskip.
        -- unfold errorEffect. simpl. rewrite Herr, Hmsg, strict_eq_refl.
           by rewrite orb_true_r.
      * unfold errorEffect. by rewrite Herr, Hmsg.
  - unfold messagesEffect at 1. cbv zeta.
    rewrite messagesEffect_prev.
    assert (Hm : stream_messages (messagesEffect s) = stream_messages s).
    { unfold messagesEffect. by destruct (_ && _). }
    rewrite Hm, Z.eqb_refl. simpl.
    unfold messagesEffect. by destruct (_ && _).
Qed.

Lemma lastErrorInSync_quiet s s' new :
  lastErrorInSync s ->
  lastError s' = lastError s ->
  trace s' = trace s ++ new ->
  notifications new = [] ->
  lastErrorInSync s'.
Proof.
  unfold lastErrorInSync. intros Hs Hl Ht Hn.
  by rewrite Hl, Ht, notifications_app, Hn, app_nil_r.
Qed.

Lemma errorEffect_in_sync s : lastErrorInSync s -> lastErrorInSync (errorEffect s).
Proof.
  unfold lastErrorInSync, errorEffect. intros Hs.
  destruct (negb _); [by left|].
  destruct (error_message _) as [message|]; [|done].
  destruct (negb (truthy message)) eqn:Htruthy; simpl; [done|].
  destruct (strict_eq _ _); [done|]. right. simpl.
  apply negb_false_iff in Htruthy. split; [done|].
  rewrite notifications_app. simpl. apply last_snoc.
Qed.

Lemma step_in_sync s ev : lastErrorInSync s -> lastErrorInSync (step s ev).
Proof.
  intros Hs. destruct ev as [uuid|uuid prompt|cp|id|text|blocks|ms|b|e].
  - change (step s (Submit uuid)) with (handleSubmit uuid s).
    destruct (submitAccepted s) eqn:Hacc.
    + rewrite (handleSubmit_accepted _ uuid s Hacc). cbv zeta.
      eapply lastErrorInSync_quiet; [exact Hs|done| |]; simpl;
        [by rewrite <- app_assoc|done].
    + rewrite (handleSubmit_rejected _ uuid s Hacc).
      by eapply lastErrorInSync_quiet.
  - simpl. unfold handleSuggestedPrompt. destruct (stream_isLoading s);
      [done|]. by eapply lastErrorInSync_quiet.
  - by eapply lastErrorInSync_quiet.
  - done.
  - done.
  - done.
  - rewrite step_messages. unfold lastErrorInSync.
    by rewrite messagesEffect_lastError, messagesEffect_trace.
  - done.
  - rewrite step_error. by apply errorEffect_in_sync.
Qed.

Lemma run_in_sync evs : forall s,
  lastErrorInSync s -> lastErrorInSync (run s evs).
Proof.
  induction evs as [|ev evs IH]; intros s Hs; [done|].
  rewrite run_cons. by apply IH, step_in_sync.
Qed.

(** X12: whatever the user and the stream do, the deduplication key
    [lastError] is either cleared or a truthy value that is the message
    of the notification shown last. *)
Theorem lastError_is_last_notification evs :
  lastErrorInSync (run initialThread evs).
Proof. apply run_in_sync. by left. Qed.

(** X13: when the recorded length is that of the transcript, a
    delivery of a transcript of the same length never sets the flag,
    even when it ends with an ai message; after [handleRegenerate] such
    a delivery does set it: the decrement is what lets a regenerated
    reply, which replaces the old one, end the loading placeholder. *)
Theorem regenerate_detects_replaced_reply cp s ms m :
  prevMessageLength s = Z.of_nat (length (stream_messages s)) ->
  length ms = length (stream_messages s) ->
  last ms = Some m -> msg_type m = ai ->
  firstTokenReceived (run s [Regenerate cp; Messages ms]) = true
  /\ firstTokenReceived (run s [Messages ms]) = firstTokenReceived s.
Proof.
  intros Hprev Hlen Hlast Hai. rewrite !run_cons, !run_nil.
  rewrite !delivery_flag. unfold firstToken. rewrite Hlast. simpl.
  rewrite Hprev, Hlen, bool_decide_eq_true_2 by done. split.
  - replace (_ =? _) with false; [done|].
    symmetry. apply Z.eqb_neq. lia.
  - rewrite Z.eqb_refl. simpl. apply orb_false_r.
Qed.

Lemma step_keepsLoading s ev :
  stream_isLoading s = true -> keepsLoading ev = true ->
  submissions (trace (step s ev)) = submissions (trace s)
  /\ stream_isLoading (step s ev) = true.
Proof.
  intros Hload Hev.
  destruct ev as [uuid|uuid prompt|cp|id|text|blocks|ms|b|e].
  - change (step s (Submit uuid)) with (handleSubmit uuid s).
    rewrite handleSubmit_loading by done. simpl.
    rewrite submissions_app. simpl. by rewrite app_nil_r.
  - simpl. by rewrite handleSuggestedPrompt_loading.
  - done.
  - done.
  - done.
  - done.
  - rewrite step_messages, messagesEffect_trace. split; [done|].
    unfold messagesEffect. by destruct (_ && _).
  - simpl in Hev. by subst b.
  - rewrite step_error.
    destruct (errorEffect_toasts (setError e s)) as (new & Ht & Hnew).
    rewrite Ht, submissions_app. split.
    + replace (submissions new) with (@nil (option SubmitPayload * SubmitOptions));
        [by rewrite app_nil_r|].
      clear Ht. induction Hnew as [|x new [message ->] _ IH]; [done|].
      done.
    + unfold errorEffect. destruct (negb _); [done|].
      destruct (error_message _); [|done]. by destruct (_ || _).
Qed.

Lemma run_keepsLoading evs : forall s,
  stream_isLoading s = true ->
  forallb keepsLoading evs = true ->
  submissions (trace (run s evs)) = submissions (trace s)
  /\ stream_isLoading (run s evs) = true.
Proof.
  induction evs as [|ev evs IH]; intros s Hload Hevs; [done|].
  simpl in Hevs. apply andb_true_iff in Hevs as [Hev Hevs].
  destruct (step_keepsLoading s ev Hload Hev) as [Hsub Hload'].
  rewrite run_cons. destruct (IH _ Hload' Hevs) as [-> ->]. done.
Qed.

(** X14: while the stream stays loading, no sequence of form
    submits, suggested prompts, new threads, typing, attachments,
    deliveries and errors makes the component call [stream.submit]:
    only a regeneration can. *)
Theorem no_call_while_loading evs s :
  stream_isLoading s = true ->
  forallb keepsLoading evs = true ->
  submissions (trace (run s evs)) = submissions (trace s)
  /\ stream_isLoading (run s evs) = true.
Proof. apply run_keepsLoading. Qed.

(** X15: a key press in the textarea changes nothing unless it is
    Enter without Shift, without Meta and outside a composition; that
    one submits the form, so it makes a call exactly when the guard of
    [handleSubmit] accepts, and otherwise leaves the input as typed. *)
Theorem keydown_submits_on_plain_enter uuid e s :
  (key e <> js "Enter" \/ shiftKey e = true \/ metaKey e = true
   \/ isComposing e = true ->
   handleKeyDown uuid e s = s)
  /\ (submitAccepted s = false ->
        submissions (trace (handleKeyDown uuid e s)) = submissions (trace s)
        /\ input (handleKeyDown uuid e s) = input s
        /\ contentBlocks (handleKeyDown uuid e s) = contentBlocks s)
  /\ (key e = js "Enter" -> shiftKey e = false -> metaKey e = false ->
      isComposing e = false -> submitAccepted s = true ->
      length (submissions (trace (handleKeyDown uuid e s)))
      = S (length (submissions (trace s)))
      /\ input (handleKeyDown uuid e s) = []).
Proof.
  split; [|split].
  - unfold handleKeyDown. intros [H|[H|[H|H]]].
    + by rewrite bool_decide_eq_false_2.
    + rewrite H. simpl. by rewrite andb_false_r.
    + rewrite H. simpl. by rewrite andb_false_r.
    + rewrite H. simpl. by rewrite andb_false_r.
  - intros Hacc. unfold handleKeyDown. destruct (_ && _); [|done].
    rewrite handleSubmit_rejected by done. simpl.
    rewrite !submissions_app. simpl. by rewrite !app_nil_r.
  - intros Hkey Hshift Hmeta Hcomp Hacc. unfold handleKeyDown.
    rewrite Hkey, Hshift, Hmeta, Hcomp, bool_decide_eq_true_2 by done.
    simpl. rewrite handleSubmit_accepted by done. cbv zeta. simpl.
    rewrite !submissions_app, !length_app. simpl. split; [lia|done].
Qed.

Lemma fallback_key index message :
  msg_id message = None \/ msg_id message = Some [] ->
  messageKey index message
  = typeName (msg_type message) ++ js "-" ++ numberToString (Z.of_nat index).
Proof. unfold messageKey. by intros [-> | ->]. Qed.

(** X16: two messages without a usable id (none, or an empty one) get
    the same key only at the same index: in the rendered list, whose
    keys are made from the index, no two of them share a key. *)
Theorem fallback_keys_distinct i j mi mj :
  msg_id mi = None \/ msg_id mi = Some [] ->
  msg_id mj = None \/ msg_id mj = Some [] ->
  messageKey i mi = messageKey j mj ->
  i = j /\ msg_type mi = msg_type mj.
Proof.
  intros Hi Hj. rewrite !fallback_key by done.
  destruct (msg_type mi), (msg_type mj); simpl; try discriminate;
    intros H; simplify_eq; split; try done;
    by apply Nat2Z.inj, (inj numberToString).
Qed.

Lemma placeholder_shown interrupt s :
  AssistantMessageLoadingElement ∈ threadContent interrupt s
  <-> stream_isLoading s && negb (firstTokenReceived s) = true.
Proof.
  unfold threadContent. rewrite !elem_of_app. split.
  - intros [H|[H|H]].
    + apply elem_of_lookup_imap in H as (i & m & H & _).
      unfold messageElement in H. by case_bool_decide.
    + destruct (_ && interrupt); [|by apply elem_of_nil in H].
      by apply list_elem_of_singleton in H.
    + destruct (_ && negb _); [done|by apply elem_of_nil in H].
  - intros ->. right. right. by apply list_elem_of_singleton.
Qed.

Lemma deliveries_keepLoading snapshots :
  forallb keepsLoading (deliveries snapshots) = true.
Proof. by induction snapshots. Qed.

(** X17: after a submission (the stream loading, the flag reset),
    and for as long as the stream only delivers transcripts, the
    loading placeholder is rendered exactly until a delivery changes
    the length of the transcript and ends with an ai message. *)
Theorem placeholder_until_first_token interrupt s snapshots :
  stream_isLoading s = true ->
  firstTokenReceived s = false ->
  AssistantMessageLoadingElement
  ∈ threadContent interrupt (run s (deliveries snapshots))
  <-> firstTokenSeen (prevMessageLength s) snapshots = false.
Proof.
  intros Hload Hflag. rewrite placeholder_shown.
  destruct (run_keepsLoading (deliveries snapshots) s Hload
              (deliveries_keepLoading snapshots)) as [_ ->].
  rewrite deliveries_flag, Hflag. simpl. apply negb_true_iff.
Qed.

End ThreadViewFacts.

(** ** The further theorems at sample inputs *)

Lemma loaded_nodes_complete_witness :
  safeRecords sampleRecords = true
  /\ (length (distinctIdentities (graphIdentities sampleRecords)) <= 100)%nat
  /\ numberToString (node_identity filingNode)
     ∈ n_id <$> nodes (loadGraphData (FetchResponse true (inr sampleRecords))
                         initialGraphState).
Proof.
  assert (Hcap :
    (length (distinctIdentities (graphIdentities sampleRecords)) <= 100)%nat)
    by (vm_compute; lia).
  split; [reflexivity|]. split; [exact Hcap|].
  apply (loaded_nodes_complete sampleRecords initialGraphState
           (mkGraphRecord (Some appleNode)
              (Some [mkRecordRelationship 1 7 12 (js "MENTIONS")])
              (Some filingNode))
           filingNode eq_refl Hcap).
  - apply list_elem_of_here.
  - right. reflexivity.
Defined.

Lemma node_styled_by_first_mention_witness :
  safeRecords sampleRecords = true
  /\ seedNode appleNode
  ∈ nodes (loadGraphData (FetchResponse true (inr sampleRecords))
             initialGraphState)
  /\ firstMention sampleRecords (seedNode appleNode).
Proof.
  assert (Hin :
    seedNode appleNode
    ∈ nodes (loadGraphData (FetchResponse true (inr sampleRecords))
               initialGraphState))
    by (vm_compute; apply list_elem_of_here).
  split; [reflexivity|]. split; [exact Hin|].
  exact (node_styled_by_first_mention sampleRecords initialGraphState
           (seedNode appleNode) eq_refl Hin).
Defined.

Lemma loaded_nodes_first_hundred_witness :
  safeRecords sampleRecords = true
  /\ n_id <$> nodes (loadGraphData (FetchResponse true (inr sampleRecords))
                       initialGraphState)
     = numberToString <$>
         take 100 (distinctIdentities (graphIdentities sampleRecords)).
Proof.
  split; [reflexivity|].
  destruct (loaded_nodes_first_hundred sampleRecords initialGraphState
              eq_refl) as (H & _).
  exact H.
Defined.

Lemma loaded_relationships_closed_witness :
  safeRecords sampleRecords = true
  /\ NoDup (e_id <$> relationships
                       (loadGraphData (FetchResponse true (inr sampleRecords))
                          initialGraphState)).
Proof.
  split; [reflexivity|].
  destruct (loaded_relationships_closed sampleRecords initialGraphState
              eq_refl) as (_ & H & _).
  exact H.
Defined.

Lemma caption_shapes_witness :
  safeInteger (node_identity appleNode) = true
  /\ exists caption,
       n_captions (seedNode appleNode) = [caption]
       /\ Forall (fun c => c <> 0x5F%N) caption.
Proof.
  split; [reflexivity|].
  destruct (caption_shapes appleNode eq_refl)
    as ((caption & Hcaption & Hclean & _) & _).
  by exists caption.
Defined.

Lemma submitted_human_message_witness :
  submitAccepted typedThread = true
  /\ exists context options blocks,
       submissions
         (trace (handleSubmit (normalize samplePrefix sampleUuid) (js "h1")
                   typedThread))
       = submissions (trace typedThread)
         ++ [(Some (mkPayload
                      (normalize samplePrefix sampleUuid
                         (stream_messages typedThread)
                       ++ [mkMessage (Some (js "h1")) human
                             (ContentBlocks blocks) [] None])
                      context),
              options)]
       /\ blocks <> [].
Proof.
  split; [reflexivity|].
  destruct (submitted_human_message (normalize samplePrefix sampleUuid)
              (js "h1") typedThread eq_refl)
    as (context & options & blocks & Hsub & Hne & _).
  by exists context, options, blocks.
Defined.

Lemma regenerate_detects_replaced_reply_witness :
  let replied :=
    run (normalize samplePrefix sampleUuid) busyThread
      [Messages [humanHi; aiSearch]] in
  prevMessageLength replied = Z.of_nat (length (stream_messages replied))
  /\ firstTokenReceived
       (run (normalize samplePrefix sampleUuid) replied
          [Regenerate (Some sampleCheckpoint); Messages [humanHi; aiSearch]])
     = true.
Proof.
  split; [reflexivity|].
  apply (regenerate_detects_replaced_reply
           (normalize samplePrefix sampleUuid) (Some sampleCheckpoint)
           (run (normalize samplePrefix sampleUuid) busyThread
              [Messages [humanHi; aiSearch]])
           [humanHi; aiSearch] aiSearch); reflexivity.
Defined.

Lemma no_call_while_loading_witness :
  stream_isLoading busyThread = true
  /\ submissions
       (trace (run (normalize samplePrefix sampleUuid) busyThread
                 [Typed (js "more"); Submit (js "h2");
                  SuggestedPrompt (js "h3") (js "Compare");
                  Messages [humanHi; aiSearch]; Submit (js "h4")]))
     = submissions (trace busyThread).
Proof.
  split; [reflexivity|].
  apply (no_call_while_loading (normalize samplePrefix sampleUuid)
           [Typed (js "more"); Submit (js "h2");
            SuggestedPrompt (js "h3") (js "Compare");
            Messages [humanHi; aiSearch]; Submit (js "h4")]
           busyThread); reflexivity.
Defined.

Lemma fallback_keys_distinct_witness :
  let first := mkMessage None ai (ContentString (js "a")) [] None in
  let second := mkMessage (Some []) ai (ContentString (js "b")) [] None in
  messageKey 3 first = messageKey 3 second
  /\ (3 = 3)%nat /\ msg_type first = msg_type second.
Proof.
  split; [reflexivity|].
  apply (fallback_keys_distinct 3 3
           (mkMessage None ai (ContentString (js "a")) [] None)
           (mkMessage (Some []) ai (ContentString (js "b")) [] None)).
  - left. reflexivity.
  - right. reflexivity.
  - reflexivity.
Defined.

Lemma placeholder_until_first_token_witness :
  stream_isLoading busyThread = true
  /\ firstTokenReceived busyThread = false
  /\ (AssistantMessageLoadingElement
      ∈ threadContent samplePrefix false
          (run (normalize samplePrefix sampleUuid) busyThread
             (deliveries [[humanHi]; [humanHi; toolResult]]))
      <-> firstTokenSeen (prevMessageLength busyThread)
            [[humanHi]; [humanHi; toolResult]] = false).
Proof.
  split; [reflexivity|]. split; [reflexivity|].
  apply (placeholder_until_first_token samplePrefix
           (normalize samplePrefix sampleUuid) false busyThread
           [[humanHi]; [humanHi; toolResult]]); reflexivity.
Defined.

(** ** Scenarios of the graph panel *)

(** Two records that mention the same two nodes and the same
    relationship: two nodes, styled by their first mentions, and one
    relationship; the first node is selected. *)
Example sample_graph :
  let s := loadGraphData (FetchResponse true (inr sampleRecords))
             initialGraphState in
  nodes s = [seedNode appleNode; episodicNode filingNode]
  /\ n_captions <$> nodes s = [[js "Apple Inc"]; [js "10-K 2024"]]
  /\ n_size <$> nodes s = [25; 20]
  /\ e_id <$> relationships s = [js "1"]
  /\ selectedNode s = Some (seedNode appleNode).
Proof. vm_compute. done. Qed.

Example number_strings :
  numberToString 0 = js "0" /\ numberToString (-120) = js "-120".
Proof. done. Qed.
